(** * Numbering core of obsidian-math-booster: numerals, prefix inference,
      callout reading, settings resolution and title formatting.

    The definitions below are a shallow embedding of the numeral
    formatters, of [inferNumberPrefix], [areValidLabels],
    [matchTheoremCallout], the callout readers, [getAncestors],
    [resolveSettings], [formatTitleWithoutSubtitle] and [formatTitle], and
    of the constant [DEFAULT_SETTINGS], all found in
    [src/settings/settings.ts].

    Conventions.
    - A JavaScript string is a [string]; its characters are code units
      below 256.  An array is a [list]; an array of one-character strings
      (the result of [split("")]) is a [list ascii].
    - A JavaScript number that holds an integer is a [Z]; [NaN] is [None]
      in an [option Z].  The embedding is exact on the safe integers (up to
      [MAX_SAFE_INTEGER] in absolute value), where [String(n)] and
      [n.toString(radix)] write every digit of [n].
    - A call that can throw returns a [completion]: [Normal v] or
      [Throw e]. *)

From Stdlib Require Import ZArith String Ascii List Bool Lia.
From stdpp Require Import gmap strings list fin_maps.

Set Warnings "-register-all".

Local Open Scope string_scope.
Local Open Scope Z_scope.

(* ===================================================================== *)
(** ** JavaScript primitives used by the sources *)
(* ===================================================================== *)

Module JS.

(** The exceptions the modelled code can raise. *)
Inductive error := RangeError | SyntaxError | TypeError.

Inductive completion (A : Type) :=
| Normal (a : A)
| Throw (e : error).
Arguments Normal {A} a.
Arguments Throw {A} e.

Definition bind {A B} (c : completion A) (k : A -> completion B) : completion B :=
  match c with
  | Normal a => k a
  | Throw e => Throw e
  end.

Definition returns {A} (c : completion A) : bool :=
  match c with Normal _ => true | Throw _ => false end.

(** [s.split("")] and [a.join("")] on one-character strings. *)
Definition chars (s : string) : list ascii := list_ascii_of_string s.
Definition join_chars (l : list ascii) : string := string_of_list_ascii l.

(** [a.join("")] on an array of strings. *)
Definition join (l : list string) : string := fold_right String.append "" l.

(** [a.join(sep)]. *)
Fixpoint join_with (sep : string) (l : list string) : string :=
  match l with
  | [] => ""
  | [x] => x
  | x :: r => x ++ sep ++ join_with sep r
  end.

(** [a.pop()]: the last element (or [undefined]) and the shortened array. *)
Definition pop {A} (a : list A) : option A * list A :=
  match rev a with
  | [] => (None, [])
  | x :: r => (Some x, rev r)
  end.

Definition code (c : ascii) : Z := Z.of_N (N_of_ascii c).
Definition of_code (z : Z) : ascii := ascii_of_N (Z.to_N z).

Definition in_range (lo hi : Z) (c : ascii) : bool :=
  (lo <=? code c) && (code c <=? hi).

Definition is_digit (c : ascii) : bool := in_range 48 57 c.
Definition is_upper (c : ascii) : bool := in_range 65 90 c.
Definition is_lower (c : ascii) : bool := in_range 97 122 c.
Definition is_letter (c : ascii) : bool := is_upper c || is_lower c.

(** [String.prototype.toLowerCase] on code units below 256: A-Z and the
    Latin-1 capitals (U+00C0..U+00DE except the multiplication sign). *)
Definition lower_char (c : ascii) : ascii :=
  if is_upper c || (in_range 192 222 c && negb (code c =? 215))
  then of_code (code c + 32) else c.

Fixpoint toLowerCase (s : string) : string :=
  match s with
  | EmptyString => EmptyString
  | String c r => String (lower_char c) (toLowerCase r)
  end.

(** White space and line terminators of the regular-expression class
    [\s] and of [trim], among the code units below 256. *)
Definition is_space (c : ascii) : bool :=
  in_range 9 13 c || (code c =? 32) || (code c =? 160).

(** Line terminators among the code units below 256 ([.] excludes them). *)
Definition is_line_terminator (c : ascii) : bool :=
  (code c =? 10) || (code c =? 13).

Fixpoint trimStart (s : string) : string :=
  match s with
  | String c r => if is_space c then trimStart r else s
  | EmptyString => EmptyString
  end.

Definition rev_string (s : string) : string := join_chars (rev (chars s)).

Definition trim (s : string) : string :=
  rev_string (trimStart (rev_string (trimStart s))).

(** [Number.MAX_SAFE_INTEGER] *)
Definition MAX_SAFE_INTEGER : Z := 2 ^ 53 - 1.

(** Digit characters of [Number.prototype.toString(radix)]: 0-9 then a-z. *)
Definition digit_char (d : Z) : ascii :=
  if d <? 10 then of_code (48 + d) else of_code (87 + d).

(** Digits of a non-negative integer, most significant first.  The fuel is
    an upper bound on the number of digits. *)
Fixpoint digits_fuel (fuel : nat) (radix n : Z) (acc : list Z) : list Z :=
  match fuel with
  | O => acc
  | S f =>
      if n <? radix then n :: acc
      else digits_fuel f radix (n / radix) (n mod radix :: acc)
  end.

Definition digits (radix n : Z) : list Z :=
  digits_fuel (S (Z.to_nat (Z.log2 n))) radix n [].

(** [num.toString(radix)] for a safe integer [num]; with [radix = 10] this
    is also [String(num)].  (Beyond the safe integers a number no longer
    holds every integer, and from 1e21 on [String] switches to exponent
    notation; neither is modelled.) *)
Definition toStringRadix (radix num : Z) : string :=
  let body := join_chars (map digit_char (digits radix (Z.abs num))) in
  if num <? 0 then String "-" body else body.

Definition NumberToString (num : Z) : string := toStringRadix 10 num.

(** Value of a digit character in a radix up to 36, as [parseInt] reads it. *)
Definition digit_value (radix : Z) (c : ascii) : option Z :=
  let v := if is_digit c then code c - 48
           else if is_lower c then code c - 87
           else if is_upper c then code c - 55
           else radix in
  if v <? radix then Some v else None.

Fixpoint digits_value (radix : Z) (acc : Z) (l : list ascii) : option Z :=
  match l with
  | [] => Some acc
  | c :: r =>
      match digit_value radix c with
      | Some v => digits_value radix (acc * radix + v) r
      | None => None
      end
  end.

(** [parseInt(str, radix)] on a one-character string. *)
Definition parseInt1 (c : ascii) (radix : Z) : option Z := digit_value radix c.

(** Unary plus on a string, for the strings the formatters build from an
    integer: empty (0), an optional sign followed by decimal digits, and
    anything else in this fragment is [NaN]. *)
Definition ToNumber (s : string) : option Z :=
  match chars s with
  | [] => Some 0
  | c :: r =>
      if (code c =? 45) then
        match r with
        | [] => None
        | _ => option_map Z.opp (digits_value 10 0 r)
        end
      else if (code c =? 43) then
        match r with
        | [] => None
        | _ => digits_value 10 0 r
        end
      else digits_value 10 0 (c :: r)
  end.

(** [+x] where [x] is a one-character string or [undefined]. *)
Definition ToNumber1 (x : option ascii) : option Z :=
  match x with
  | None => None
  | Some c => ToNumber (String c "")
  end.

Fixpoint repeat_string (n : nat) (s : string) : string :=
  match n with
  | O => ""
  | S k => s ++ repeat_string k s
  end.

(** [Array(len).join(sep)]: [Array] with one numeric argument throws a
    RangeError unless the argument is an integer in [0, 2^32 - 1]; joining
    [len] holes gives [len - 1] separators.  The limit an engine puts on
    the length of a string (2^28 code units and more, depending on the
    engine) is not part of the model: what is proved of a returned string
    stays far below it. *)
Definition Array_join (len : option Z) (sep : string) : completion string :=
  match len with
  | None => Throw RangeError
  | Some k =>
      if (0 <=? k) && (k <? 2 ^ 32)
      then Normal (repeat_string (Z.to_nat (k - 1)) sep)
      else Throw RangeError
  end.

End JS.

(* ===================================================================== *)
(** ** Numeral formatters *)
(* ===================================================================== *)

Module Numeral.
Import JS.

Definition ROMAN : list string :=
  [""; "C"; "CC"; "CCC"; "CD"; "D"; "DC"; "DCC"; "DCCC"; "CM";
   ""; "X"; "XX"; "XXX"; "XL"; "L"; "LX"; "LXX"; "LXXX"; "XC";
   ""; "I"; "II"; "III"; "IV"; "V"; "VI"; "VII"; "VIII"; "IX"].

(** [ROMAN[k] ?? ""] where the index may be [NaN]. *)
Definition ROMAN_at (k : option Z) : string :=
  match k with
  | Some z => if z <? 0 then "" else nth (Z.to_nat z) ROMAN ""
  | None => ""
  end.

(** The loop [let i = 3; while (i--) { ... }]: the body runs with
    [i = 2, 1, 0]. *)
Fixpoint romanLoop (i : nat) (digits : list ascii) (roman : string)
  : list ascii * string :=
  match i with
  | O => (digits, roman)
  | S i' =>
      let '(d, digits') := pop digits in
      let idx := option_map (fun v => v + Z.of_nat i' * 10) (ToNumber1 d) in
      romanLoop i' digits' (ROMAN_at idx ++ roman)
  end.

Definition toRomanUpper (num : Z) : completion string :=
  let digits := chars (NumberToString num) in
  let '(digits, roman) := romanLoop 3 digits "" in
  bind (Array_join (option_map (fun v => v + 1) (ToNumber (join_chars digits))) "M")
       (fun ms => Normal (ms ++ roman)).

Definition toRomanLower (num : Z) : completion string :=
  bind (toRomanUpper num) (fun s => Normal (toLowerCase s)).

Definition ALPH : string := "ABCDEFGHIJKLMNOPQRSTUVWXYZ".

(** [ALPH[k]]: [undefined] when [k] is [NaN] or out of the string. *)
Definition ALPH_at (k : option Z) : option ascii :=
  match k with
  | Some z => if z <? 0 then None else String.get (Z.to_nat z) ALPH
  | None => None
  end.

(** [join("")] writes [undefined] elements as the empty string. *)
Definition join_defined (l : list (option ascii)) : string :=
  join (map (fun o => match o with Some c => String c "" | None => "" end) l).

Definition toAlphUpper (num : Z) : string :=
  join_defined
    (map (fun str => ALPH_at (parseInt1 str 26))
         (chars (toStringRadix 26 (num - 1)))).

Definition toAlphLower (num : Z) : string := toLowerCase (toAlphUpper num).

Inductive NumberStyle := arabic | alph | Alph | roman | Roman.

Definition CONVERTER (style : NumberStyle) (num : Z) : completion string :=
  match style with
  | arabic => Normal (NumberToString num)
  | alph => Normal (toAlphLower num)
  | Alph => Normal (toAlphUpper num)
  | roman => toRomanLower num
  | Roman => toRomanUpper num
  end.

End Numeral.

(* ===================================================================== *)
(** ** Regular expressions: the anchored patterns of [isValidLabel] *)
(* ===================================================================== *)

Module Regex.
Import JS.

(** A character class is a list of code ranges, possibly negated. *)
Record charclass := { negated : bool; ranges : list (Z * Z) }.

Inductive regex :=
| Void
| Eps
| Cls (k : charclass)
| Cat (r1 r2 : regex)
| Alt (r1 r2 : regex)
| Star (r : regex).

Definition in_ranges (rs : list (Z * Z)) (c : ascii) : bool :=
  existsb (fun '(lo, hi) => in_range lo hi c) rs.

(** The other member of the case pair of a code unit below 256 (flag [i]
    compares characters up to [toUpperCase]). *)
Definition swapcase (c : ascii) : ascii :=
  if is_upper c || (in_range 192 222 c && negb (code c =? 215))
  then of_code (code c + 32)
  else if is_lower c || (in_range 224 254 c && negb (code c =? 247))
  then of_code (code c - 32)
  else c.

Definition class_mem (icase : bool) (k : charclass) (c : ascii) : bool :=
  xorb (negated k)
       (in_ranges (ranges k) c || (icase && in_ranges (ranges k) (swapcase c))).

Fixpoint nullable (r : regex) : bool :=
  match r with
  | Void => false
  | Eps => true
  | Cls _ => false
  | Cat r1 r2 => nullable r1 && nullable r2
  | Alt r1 r2 => nullable r1 || nullable r2
  | Star _ => true
  end.

(** Concatenation and alternation that drop the empty language and the
    empty word as they are built, so that derivatives stay small. *)
Definition cat (r1 r2 : regex) : regex :=
  match r1, r2 with
  | Void, _ => Void
  | _, Void => Void
  | Eps, _ => r2
  | _, _ => Cat r1 r2
  end.

Definition alt (r1 r2 : regex) : regex :=
  match r1, r2 with
  | Void, _ => r2
  | _, Void => r1
  | _, _ => Alt r1 r2
  end.

(** Brzozowski derivative. *)
Fixpoint der (icase : bool) (c : ascii) (r : regex) : regex :=
  match r with
  | Void => Void
  | Eps => Void
  | Cls k => if class_mem icase k c then Eps else Void
  | Cat r1 r2 =>
      if nullable r1
      then alt (cat (der icase c r1) r2) (der icase c r2)
      else cat (der icase c r1) r2
  | Alt r1 r2 => alt (der icase c r1) (der icase c r2)
  | Star r1 => cat (der icase c r1) (Star r1)
  end.

Fixpoint matches (icase : bool) (r : regex) (s : list ascii) : bool :=
  match s with
  | [] => nullable r
  | c :: t => matches icase (der icase c r) t
  end.

(** [/^r$/.test(s)], with the flag [i] when [icase] is set. *)
Definition test_anchored (icase : bool) (r : regex) (s : string) : bool :=
  matches icase r (chars s).

Definition chr (c : ascii) : regex :=
  Cls {| negated := false; ranges := [(code c, code c)] |}.

Definition range (lo hi : ascii) : regex :=
  Cls {| negated := false; ranges := [(code lo, code hi)] |}.

Fixpoint lit_chars (l : list ascii) : regex :=
  match l with
  | [] => Eps
  | [c] => chr c
  | c :: t => Cat (chr c) (lit_chars t)
  end.

Definition lit (s : string) : regex := lit_chars (chars s).

Definition opt (r : regex) : regex := Alt r Eps.

(** [r{0,n}], greedy. *)
Fixpoint upto (n : nat) (r : regex) : regex :=
  match n with
  | O => Eps
  | S k => opt (Cat r (upto k r))
  end.

Definition plus (r : regex) : regex := Cat r (Star r).

End Regex.

(* ===================================================================== *)
(** ** Prefix inference *)
(* ===================================================================== *)

Module Prefix.
Import JS Regex.

(** [/^[0-9]+$/] *)
Definition ARABIC_PATTERN : regex := plus (range "0" "9").

(** [/^M{0,4}(CM|CD|D?C{0,3})(XC|XL|L?X{0,3})(IX|IV|V?I{0,3})$/i] *)
Definition ROMAN_PATTERN : regex :=
  Cat (upto 4 (chr "M"))
 (Cat (Alt (lit "CM") (Alt (lit "CD") (Cat (opt (chr "D")) (upto 3 (chr "C")))))
 (Cat (Alt (lit "XC") (Alt (lit "XL") (Cat (opt (chr "L")) (upto 3 (chr "X")))))
      (Alt (lit "IX") (Alt (lit "IV") (Cat (opt (chr "V")) (upto 3 (chr "I"))))))).

(** [/^[a-z]$/i] *)
Definition LETTER_PATTERN : regex := range "a" "z".

Definition isValidLabel (label : string) : bool :=
  if test_anchored false ARABIC_PATTERN label then true
  else if test_anchored true ROMAN_PATTERN label then true
  else if test_anchored true LETTER_PATTERN label then true
  else false.

(** Truthiness of a string: non-empty. *)
Definition truthy (s : string) : bool :=
  match s with EmptyString => false | _ => true end.

Definition areValidLabels (labels : list string) : bool :=
  let blankRemoved := List.filter truthy labels in
  if (2 <=? Z.of_nat (length blankRemoved)) then
    forallb isValidLabel blankRemoved
  else if (Z.of_nat (length blankRemoved) =? 1) then
    (Z.of_nat (length labels) =? 2) && isValidLabel (nth 0 labels "")
  else false.

(** [source.match(/\s/)?.index ?? source.length] *)
Fixpoint first_space_or_length (l : list ascii) : nat :=
  match l with
  | [] => O
  | c :: r => if is_space c then O else S (first_space_or_length r)
  end.

(** [s.slice(0, n)] for [0 <= n <= s.length]. *)
Definition slice0 (s : string) (n : nat) : string := substring 0 n s.

(** The body of a character class [[...]] written without backslash and
    without closing bracket: a leading caret negates, [a-b] is a range
    (a syntax error when out of order), a hyphen that is first or last is
    literal. *)
Fixpoint class_atoms (l : list ascii) : completion (list (Z * Z)) :=
  match l with
  | [] => Normal []
  | a :: rest =>
      match rest with
      | h :: b :: r =>
          if code h =? 45 then
            if code a <=? code b
            then bind (class_atoms r) (fun rs => Normal ((code a, code b) :: rs))
            else Throw SyntaxError
          else bind (class_atoms rest) (fun rs => Normal ((code a, code a) :: rs))
      | _ => bind (class_atoms rest) (fun rs => Normal ((code a, code a) :: rs))
      end
  end.

(** [new RegExp(`[${parseSep}]`)].  [None]: the pattern is outside the
    modelled fragment (it holds a backslash or a closing bracket). *)
Definition RegExp_class (parseSep : string) : option (completion charclass) :=
  let l := chars parseSep in
  if existsb (fun c => (code c =? 92) || (code c =? 93)) l then None
  else
    let '(neg, body) :=
      match l with
      | c :: r => if code c =? 94 then (true, r) else (false, l)
      | [] => (false, l)
      end in
    Some (bind (class_atoms body)
               (fun rs => Normal {| negated := neg; ranges := rs |})).

(** [head.split(re)] for a pattern [re] that matches exactly one
    character of the class: the pieces between the matching characters,
    empty pieces included. *)
Fixpoint split_go (k : charclass) (l : list ascii) (cur : list ascii) : list string :=
  match l with
  | [] => [join_chars (rev cur)]
  | c :: r =>
      if class_mem false k c
      then join_chars (rev cur) :: split_go k r []
      else split_go k r (c :: cur)
  end.

Definition split (k : charclass) (s : string) : list string :=
  split_go k (chars s) [].

(** [a.slice(0, n)] on an array, [n] an integer (negative counts from the
    end). *)
Definition array_slice0 {A} (a : list A) (n : Z) : list A :=
  let len := Z.of_nat (length a) in
  let fin := if n <? 0 then Z.max (len + n) 0 else Z.min n len in
  firstn (Z.to_nat fin) a.

(** [s.endsWith(t)] *)
Definition endsWith (s t : string) : bool :=
  let n := String.length s in
  let m := String.length t in
  (m <=? n)%nat && String.eqb (substring (n - m) m s) t.

Definition inferNumberPrefix (source parseSep printSep : string) (useFirstN : Z)
  : option (completion (option string)) :=
  let head := slice0 source (first_space_or_length (chars source)) in
  match RegExp_class parseSep with
  | None => None
  | Some re =>
      Some (bind re (fun k =>
        let labels := split k head in
        if areValidLabels labels then
          let usedLabels := array_slice0 labels useFirstN in
          let prefix := join_with printSep usedLabels in
          let prefix := if negb (endsWith prefix printSep)
                        then prefix ++ printSep else prefix in
          Normal (Some prefix)
        else Normal None))
  end.

End Prefix.

(* ===================================================================== *)
(** ** Reading a theorem callout header *)
(* ===================================================================== *)

Module Callout.
Import JS.

(** *** [JSON.parse] *)

(** A parsed JSON text.  A number keeps its lexeme; a string is the list of
    its UTF-16 code units ([\uXXXX] escapes can exceed 255). *)
Inductive json :=
| JNull
| JBool (b : bool)
| JNumber (lexeme : string)
| JString (units : list Z)
| JArray (items : list json)
| JObject (members : list (list Z * json)).

Definition is_json_ws (c : ascii) : bool :=
  (code c =? 32) || (code c =? 9) || (code c =? 10) || (code c =? 13).

Fixpoint skip_ws (l : list ascii) : list ascii :=
  match l with
  | c :: r => if is_json_ws c then skip_ws r else l
  | [] => []
  end.

Definition hex_value (c : ascii) : option Z := digit_value 16 c.

(** The characters of a string literal after its opening quote. *)
Fixpoint parse_string_body (l : list ascii) (acc : list Z)
  : option (list Z * list ascii) :=
  match l with
  | [] => None
  | c :: r =>
      if code c =? 34 then Some (rev acc, r)
      else if code c =? 92 then
        match r with
        | [] => None
        | e :: r1 =>
            if code e =? 117 then
              match r1 with
              | h1 :: h2 :: h3 :: h4 :: r2 =>
                  match hex_value h1, hex_value h2, hex_value h3, hex_value h4 with
                  | Some a, Some b, Some c', Some d =>
                      parse_string_body r2 (((a * 16 + b) * 16 + c') * 16 + d :: acc)
                  | _, _, _, _ => None
                  end
              | _ => None
              end
            else
              let unit :=
                if code e =? 34 then Some 34          (* quote *)
                else if code e =? 92 then Some 92     (* backslash *)
                else if code e =? 47 then Some 47     (* slash *)
                else if code e =? 98 then Some 8      (* b: backspace *)
                else if code e =? 102 then Some 12    (* f: form feed *)
                else if code e =? 110 then Some 10    (* n: line feed *)
                else if code e =? 114 then Some 13    (* r: carriage return *)
                else if code e =? 116 then Some 9     (* t: tab *)
                else None in
              match unit with
              | Some u => parse_string_body r1 (u :: acc)
              | None => None
              end
        end
      else if code c <? 32 then None
      else parse_string_body r (code c :: acc)
  end.

Fixpoint take_digits (l : list ascii) (acc : list ascii) : list ascii * list ascii :=
  match l with
  | c :: r => if is_digit c then take_digits r (c :: acc) else (rev acc, l)
  | [] => (rev acc, [])
  end.

(** A number lexeme: an optional minus sign, an integer part without
    leading zero, an optional fraction and an optional exponent. *)
Definition parse_number (l : list ascii) : option (string * list ascii) :=
  let '(sign, l1) :=
    match l with
    | c :: r => if code c =? 45 then ([c], r) else ([], l)
    | [] => ([], l)
    end in
  let '(int, l2) := take_digits l1 [] in
  match int with
  | [] => None
  | d :: ds =>
      if (code d =? 48) && negb (Nat.eqb (length ds) 0) then None
      else
        let frac :=
          match l2 with
          | c :: r =>
              if code c =? 46 then
                let '(fd, l3) := take_digits r [] in
                match fd with
                | [] => None
                | _ => Some (c :: fd, l3)
                end
              else Some ([], l2)
          | [] => Some ([], l2)
          end in
        match frac with
        | None => None
        | Some (fr, l3) =>
            let exp :=
              match l3 with
              | c :: r =>
                  if (code c =? 101) || (code c =? 69) then
                    let '(sg, r1) :=
                      match r with
                      | s :: r' =>
                          if (code s =? 43) || (code s =? 45) then ([s], r') else ([], r)
                      | [] => ([], r)
                      end in
                    let '(ed, l4) := take_digits r1 [] in
                    match ed with
                    | [] => None
                    | _ => Some ((c :: sg ++ ed)%list, l4)
                    end
                  else Some ([], l3)
              | [] => Some ([], l3)
              end in
            match exp with
            | None => None
            | Some (ex, l4) => Some (join_chars (sign ++ int ++ fr ++ ex)%list, l4)
            end
        end
  end.

Fixpoint expect_lit (lit l : list ascii) : option (list ascii) :=
  match lit with
  | [] => Some l
  | x :: lit' =>
      match l with
      | c :: r => if Ascii.eqb c x then expect_lit lit' r else None
      | [] => None
      end
  end.

(** One JSON value at the head of [l] (after white space) and the rest of
    the input.  The fuel bounds the nesting depth and the number of
    members of one array or object; [S (length l)] is always enough since
    every level and every member consumes a character. *)
Fixpoint parse_value (fuel : nat) (l : list ascii) : option (json * list ascii) :=
  match fuel with
  | O => None
  | S f =>
      match skip_ws l with
      | [] => None
      | c :: r =>
          if code c =? 123 then                                   (* { *)
            match skip_ws r with
            | [] => None
            | c1 :: r1 =>
                if code c1 =? 125 then Some (JObject [], r1)
                else
                  (fix members (n : nat) (l : list ascii) (acc : list (list Z * json))
                     : option (json * list ascii) :=
                     match n with
                     | O => None
                     | S n' =>
                         match skip_ws l with
                         | [] => None
                         | q :: l1 =>
                             if code q =? 34 then
                               match parse_string_body l1 [] with
                               | None => None
                               | Some (k, l2) =>
                                   match skip_ws l2 with
                                   | [] => None
                                   | colon :: l3 =>
                                       if code colon =? 58 then
                                         match parse_value f l3 with
                                         | None => None
                                         | Some (v, l4) =>
                                             match skip_ws l4 with
                                             | [] => None
                                             | s :: l5 =>
                                                 if code s =? 44 then members n' l5 ((k, v) :: acc)
                                                 else if code s =? 125
                                                 then Some (JObject (rev ((k, v) :: acc)), l5)
                                                 else None
                                             end
                                         end
                                       else None
                                   end
                               end
                             else None
                         end
                     end) f (c1 :: r1) []
            end
          else if code c =? 91 then                               (* [ *)
            match skip_ws r with
            | [] => None
            | c1 :: r1 =>
                if code c1 =? 93 then Some (JArray [], r1)
                else
                  (fix elements (n : nat) (l : list ascii) (acc : list json)
                     : option (json * list ascii) :=
                     match n with
                     | O => None
                     | S n' =>
                         match parse_value f l with
                         | None => None
                         | Some (v, l1) =>
                             match skip_ws l1 with
                             | [] => None
                             | s :: l2 =>
                                 if code s =? 44 then elements n' l2 (v :: acc)
                                 else if code s =? 93
                                 then Some (JArray (rev (v :: acc)), l2)
                                 else None
                             end
                         end
                     end) f (c1 :: r1) []
            end
          else if code c =? 34 then                               (* string *)
            match parse_string_body r [] with
            | Some (u, r1) => Some (JString u, r1)
            | None => None
            end
          else if code c =? 116 then                              (* true *)
            option_map (fun r1 => (JBool true, r1)) (expect_lit (chars "rue") r)
          else if code c =? 102 then                              (* false *)
            option_map (fun r1 => (JBool false, r1)) (expect_lit (chars "alse") r)
          else if code c =? 110 then                              (* null *)
            option_map (fun r1 => (JNull, r1)) (expect_lit (chars "ull") r)
          else
            option_map (fun '(lx, r1) => (JNumber lx, r1)) (parse_number (c :: r))
      end
  end.

(** A whole text with a given fuel: one value, then only white space. *)
Definition parse_text (fuel : nat) (text : string) : option json :=
  match parse_value fuel (chars text) with
  | Some (v, rest) =>
      match skip_ws rest with
      | [] => Some v
      | _ => None
      end
  | None => None
  end.

(** [JSON.parse(text)]: the value, or a SyntaxError. *)
Definition JSON_parse (text : string) : completion json :=
  match parse_text (S (String.length text)) text with
  | Some v => Normal v
  | None => Throw SyntaxError
  end.

(** *** [THEOREM_CALLOUT_PATTERN]

    The pattern reads: a [>], blanks, [[!], blanks, [math], blanks, a
    vertical bar, a lazy group of any characters, a closing bracket, and a
    greedy group of any characters. *)

Fixpoint skip_blanks (l : list ascii) : list ascii :=
  match l with
  | c :: r => if code c =? 32 then skip_blanks r else l
  | [] => []
  end.

(** The lazy group followed by the closing bracket: the text up to
    the first closing bracket, which no line terminator may precede. *)
Fixpoint lazy_to_bracket (l : list ascii) (acc : list ascii)
  : option (list ascii * list ascii) :=
  match l with
  | [] => None
  | c :: r =>
      if code c =? 93 then Some (rev acc, r)
      else if is_line_terminator c then None
      else lazy_to_bracket r (c :: acc)
  end.

(** The greedy group: the rest of the line. *)
Fixpoint rest_of_line (l : list ascii) : list ascii :=
  match l with
  | c :: r => if is_line_terminator c then [] else c :: rest_of_line r
  | [] => []
  end.

(** The pattern matched at the head of [l]: capture groups 1 and 2. *)
Definition match_here (l : list ascii) : option (string * string) :=
  match expect_lit (chars ">") l with
  | None => None
  | Some l1 =>
  match expect_lit (chars "[!") (skip_blanks l1) with
  | None => None
  | Some l2 =>
  match expect_lit (chars "math") (skip_blanks l2) with
  | None => None
  | Some l3 =>
  match expect_lit (chars "|") (skip_blanks l3) with
  | None => None
  | Some l4 =>
  match lazy_to_bracket l4 [] with
  | None => None
  | Some (g1, l5) => Some (join_chars g1, join_chars (rest_of_line l5))
  end end end end end.

(** [THEOREM_CALLOUT_PATTERN.exec(line)]: the leftmost match. *)
Fixpoint exec (l : list ascii) : option (string * string) :=
  match match_here l with
  | Some m => Some m
  | None =>
      match l with
      | [] => None
      | _ :: r => exec r
      end
  end.

Definition matchTheoremCallout (line : string) : option (string * string) :=
  match line with
  | EmptyString => None
  | _ => exec (chars line)
  end.

Record CalloutAndTitle := { settings : json; title : string }.

Definition readTheoremCalloutSettingsAndTitle (line : string)
  : completion (option CalloutAndTitle) :=
  match matchTheoremCallout line with
  | Some (g1, g2) =>
      bind (JSON_parse g1) (fun settings =>
      let title := trim g2 in
      Normal (Some {| settings := settings; title := title |}))
  | None => Normal None
  end.

Definition readTheoremCalloutSettings (line : string) : completion (option json) :=
  bind (readTheoremCalloutSettingsAndTitle line) (fun result =>
  match result with
  | Some r => Normal (Some (settings r))
  | None => Normal None
  end).

Definition readTheoremCalloutTitle (line : string) : completion (option string) :=
  bind (readTheoremCalloutSettingsAndTitle line) (fun result =>
  match result with
  | Some r => Normal (Some (title r))
  | None => Normal None
  end).

End Callout.

(* ===================================================================== *)
(** ** Settings resolution *)
(* ===================================================================== *)

Module Resolve.
Import JS.

(** Objects live in a heap and are named by their location, so that
    identity and aliasing are visible. *)
Definition loc := positive.

(** Property values.  A property that is absent reads as [undefined],
    which is [None] at a lookup; a property that is present and holds
    [undefined] is [Some VUndef].  [Object.assign] copies the latter like
    any other own property. *)
Inductive val :=
| VUndef
| VNull
| VBool (b : bool)
| VNum (z : Z)
| VStr (s : string)
| VRef (l : loc).

Abbreviation obj := (gmap string val).
Abbreviation heap := (gmap loc obj).

(** A file or folder of the vault with its chain of parents; the parent of
    the vault root is [null]. *)
Inductive TAbstractFile :=
| TFile (path : string) (parent : option TAbstractFile)
| TFolder (path : string) (parent : option TAbstractFile) (root : bool).

Definition path (f : TAbstractFile) : string :=
  match f with TFile p _ => p | TFolder p _ _ => p end.

Definition parent (f : TAbstractFile) : option TAbstractFile :=
  match f with TFile _ q => q | TFolder _ q _ => q end.

(** [file instanceof TFolder && file.isRoot()] *)
Definition isRootFolder (f : TAbstractFile) : bool :=
  match f with TFile _ _ => false | TFolder _ _ r => r end.

(** The loop of [getAncestors]: push, leave when the guard on [file] holds,
    step to the parent, stop at [null]. *)
Fixpoint ancestors_loop (guard : bool) (ancestor : TAbstractFile)
  (ancestors : list TAbstractFile) : list TAbstractFile :=
  let ancestors := (ancestors ++ [ancestor])%list in
  if guard then ancestors
  else
    match ancestor with
    | TFile _ (Some p) | TFolder _ (Some p) _ => ancestors_loop guard p ancestors
    | _ => ancestors
    end.

Definition getAncestors (file : TAbstractFile) : list TAbstractFile :=
  rev (ancestors_loop (isRootFolder file) file []).

(** The own enumerable properties [Object.assign] copies from a source:
    those of the object a reference names, the indexed characters of a
    string, nothing for [undefined], [null], numbers and booleans. *)
Definition ownProps (h : heap) (source : option val) : obj :=
  match source with
  | Some (VRef l) => default ∅ (h !! l)
  | Some (VStr s) =>
      list_to_map
        (imap (fun i c => (NumberToString (Z.of_nat i), VStr (String c "")))
              (chars s))
  | _ => ∅
  end.

(** [Object.assign(target, source)]: every own property of the source is
    written into the target, which is updated in place. *)
Definition Object_assign (target : loc) (source : option val) (h : heap) : heap :=
  match h !! target with
  | Some o => <[target := ownProps h source ∪ o]> h
  | None => h
  end.

(** The object literal [{}]: a fresh location holding no property. *)
Definition new_object (h : heap) : heap * loc :=
  let l := fresh (dom h) in (<[l := ∅]> h, l).

(** [o[k]] for the object at [l]: the own property, or [undefined].  (A
    key that names a member of [Object.prototype] would read that member,
    which has no enumerable own property: [Object.assign] copies nothing
    from it, as from [undefined].) *)
Definition get (h : heap) (l : loc) (k : string) : option val :=
  match h !! l with
  | Some o => o !! k
  | None => None
  end.

(** [DEFAULT_SETTINGS], with the imported [DEFAULT_LANG] and the location
    of the object literal of its [rename] field as parameters. *)
Definition DEFAULT_SETTINGS (DEFAULT_LANG : string) (rename : loc) : obj :=
  list_to_map
    [("lang", VStr DEFAULT_LANG);
     ("titleSuffix", VStr ".");
     ("numberPrefix", VStr "");
     ("numberSuffix", VStr "");
     ("numberInit", VNum 1);
     ("numberStyle", VStr "arabic");
     ("numberDefault", VStr "auto");
     ("refFormat", VStr "Type + number (+ title)");
     ("noteMathLinkFormat", VStr "Type + number (+ title)");
     ("eqNumberPrefix", VStr "");
     ("eqNumberSuffix", VStr "");
     ("eqNumberInit", VNum 1);
     ("eqNumberStyle", VStr "arabic");
     ("eqRefPrefix", VStr "");
     ("eqRefSuffix", VStr "");
     ("labelPrefix", VStr "");
     ("rename", VRef rename);
     ("lineByLine", VBool true);
     ("mathCalloutStyle", VStr "framed");
     ("mathCalloutFontInherit", VBool false);
     ("mainMathCallout", VStr "None")].

(** The fields of the interface [MathContextSettings]. *)
Definition MathContextSettings_fields : list string :=
  ["lang"; "titleSuffix"; "numberPrefix"; "numberSuffix"; "numberInit";
   "numberStyle"; "numberDefault"; "refFormat"; "noteMathLinkFormat";
   "eqNumberPrefix"; "eqNumberSuffix"; "eqNumberInit"; "eqNumberStyle";
   "eqRefPrefix"; "eqRefSuffix"; "labelPrefix"; "rename"; "lineByLine";
   "mathCalloutStyle"; "mathCalloutFontInherit"; "mainMathCallout"].

(** The [for] loop of [resolveSettings] over the ancestors. *)
Definition assign_ancestors (resolvedSettings plugin_settings : loc)
  (ancestors : list TAbstractFile) (h : heap) : heap :=
  fold_left
    (fun h ancestor =>
       Object_assign resolvedSettings (get h plugin_settings (path ancestor)) h)
    ancestors h.

(** [resolveSettings(settings, plugin, currentFile)].  [DEFAULT] is the
    location of the global [DEFAULT_SETTINGS], [plugin_settings] that of
    [plugin.settings], [settings] the callout's own record or [undefined].
    The result is the final heap and the location returned. *)
Definition resolveSettings (DEFAULT : loc) (settings : option loc)
  (plugin_settings : loc) (currentFile : TAbstractFile) (h : heap) : heap * loc :=
  let '(h, resolvedSettings) := new_object h in
  let h := Object_assign resolvedSettings (Some (VRef DEFAULT)) h in
  let ancestors := getAncestors currentFile in
  let h := assign_ancestors resolvedSettings plugin_settings ancestors h in
  let h := Object_assign resolvedSettings (option_map VRef settings) h in
  (h, resolvedSettings).

End Resolve.

(* ===================================================================== *)
(** ** Title formatting *)
(* ===================================================================== *)

Module Title.
Import JS Numeral Prefix.

(** The fields of a resolved settings record that the formatter reads.
    The flag [settings.inferNumberPrefix] is the field
    [inferNumberPrefix_on], the name being taken by the function. *)
Record ResolvedMathSettings := {
  profile : string;
  titleSuffix : string;
  numberPrefix : string;
  numberSuffix : string;
  numberInit : option Z;
  numberStyle : option NumberStyle;
  inferNumberPrefix_on : bool;
  inferNumberPrefixFromProperty : string;
  inferNumberPrefixParseSep : string;
  inferNumberPrefixPrintSep : string;
  inferNumberPrefixUseFirstN : Z;
  type : string;
  number : string;
  title : option string;
  _index : option Z
}.

(** [plugin.extraSettings.profiles]: profile id to the display names of
    the environments ([profile.body.theorem]). *)
Record Plugin := { profiles : gmap string (gmap string string) }.

(** What the metadata cache holds of a file. *)
Record CachedMetadata := {
  frontmatter : option (gmap string string);
  frontmatterLinks : option (list (string * string))
}.

Record FileInfo := { basename : string; fileCache : option CachedMetadata }.

(** A value that is a string or [undefined], spliced into a string. *)
Definition str (v : option string) : string := default "undefined" v.

Definition formatTheoremCalloutType (plugin : Plugin) (settings : ResolvedMathSettings)
  : completion (option string) :=
  match profiles plugin !! profile settings with
  | None => Throw TypeError
  | Some theorem => Normal (theorem !! type settings)
  end.

Definition getProperty (file : FileInfo) (name : string) : option string :=
  match fileCache file with
  | Some cache =>
      match frontmatter cache with
      | Some fm => fm !! name
      | None => None
      end
  | None => None
  end.

Definition getPropertyLink (file : FileInfo) (name : string) : option string :=
  match fileCache file with
  | Some cache =>
      match frontmatterLinks cache with
      | Some links =>
          option_map snd (List.find (fun '(key, _) => String.eqb key name) links)
      | None => None
      end
  | None => None
  end.

Definition getPropertyOrLinkTextInProperty (file : FileInfo) (name : string)
  : option string :=
  match getPropertyLink file name with
  | Some link => Some link
  | None => getProperty file name
  end.

(** [None] as the outer result: the separator pattern is outside the
    fragment [RegExp_class] models. *)
Definition getNumberPrefix (file : FileInfo) (settings : ResolvedMathSettings)
  : option (completion string) :=
  if truthy (numberPrefix settings) then Some (Normal (numberPrefix settings))
  else
    let source :=
      if truthy (inferNumberPrefixFromProperty settings)
      then getPropertyOrLinkTextInProperty file (inferNumberPrefixFromProperty settings)
      else Some (basename file) in
    match source with
    | Some src =>
        if inferNumberPrefix_on settings && truthy src then
          option_map
            (fun c => bind c (fun r => Normal (default "" r)))
            (inferNumberPrefix src
               (inferNumberPrefixParseSep settings)
               (inferNumberPrefixPrintSep settings)
               (inferNumberPrefixUseFirstN settings))
        else Some (Normal "")
    | None => Some (Normal "")
    end.

(** [formatTitleWithoutSubtitle].  The write
    [settings.numberInit = settings.numberInit ?? 1] only fills a missing
    [numberInit] of the record passed in; it does not change the title. *)
Definition formatTitleWithoutSubtitle (plugin : Plugin) (file : FileInfo)
  (settings : ResolvedMathSettings) : option (completion (option string)) :=
  match formatTheoremCalloutType plugin settings with
  | Throw e => Some (Throw e)
  | Normal title =>
      if truthy (number settings) then
        if String.eqb (number settings) "auto" then
          match _index settings with
          | Some index =>
              let numberInit := default 1 (numberInit settings) in
              let num := index + numberInit in
              let style := default arabic (numberStyle settings) in
              option_map
                (fun pre =>
                   bind pre (fun prefix =>
                   bind (CONVERTER style num) (fun numeral =>
                   Normal (Some (str title ++ " " ++ prefix ++ numeral
                                   ++ numberSuffix settings)))))
                (getNumberPrefix file settings)
          | None => Some (Normal title)
          end
        else Some (Normal (Some (str title ++ " " ++ number settings)))
      else Some (Normal title)
  end.

(** The two [if]s of [formatTitle] after the call. *)
Definition add_subtitle (settings : ResolvedMathSettings) (noTitleSuffix : bool)
  (title : option string) : option string :=
  let title :=
    match Title.title settings with
    | Some t => if truthy t then Some (str title ++ " (" ++ t ++ ")") else title
    | None => title
    end in
  if negb noTitleSuffix && truthy (titleSuffix settings)
  then Some (str title ++ titleSuffix settings) else title.

Definition formatTitle (plugin : Plugin) (file : FileInfo)
  (settings : ResolvedMathSettings) (noTitleSuffix : bool)
  : option (completion (option string)) :=
  option_map
    (fun c => bind c (fun title => Normal (add_subtitle settings noTitleSuffix title)))
    (formatTitleWithoutSubtitle plugin file settings).

End Title.

Import JS Numeral Regex Prefix Callout Resolve Title.
(* ===================================================================== *)
(** ** Reference notions the properties are stated against *)
(* ===================================================================== *)

Module Reference.
Import JS.

(** Reading a Roman numeral back: each symbol counts its value, negatively
    when a larger symbol follows it. *)
Definition roman_symbol (c : ascii) : option Z :=
  if Ascii.eqb c "I" then Some 1
  else if Ascii.eqb c "V" then Some 5
  else if Ascii.eqb c "X" then Some 10
  else if Ascii.eqb c "L" then Some 50
  else if Ascii.eqb c "C" then Some 100
  else if Ascii.eqb c "D" then Some 500
  else if Ascii.eqb c "M" then Some 1000
  else None.

Fixpoint roman_symbols (l : list ascii) : option (list Z) :=
  match l with
  | [] => Some []
  | c :: r =>
      match roman_symbol c, roman_symbols r with
      | Some v, Some vs => Some (v :: vs)
      | _, _ => None
      end
  end.

Fixpoint roman_sum (l : list Z) : Z :=
  match l with
  | [] => 0
  | v :: r =>
      match r with
      | w :: _ => if v <? w then roman_sum r - v else v + roman_sum r
      | [] => v
      end
  end.

Definition fromRoman (s : string) : option Z :=
  option_map roman_sum (roman_symbols (chars s)).

(** Value of a word over a-z / A-Z read as a positional base-26 numeral
    whose digit zero is the letter a. *)
Definition letter_digit (c : ascii) : option Z :=
  if is_upper c then Some (code c - 65)
  else if is_lower c then Some (code c - 97)
  else None.

Fixpoint positional26 (acc : Z) (l : list ascii) : option Z :=
  match l with
  | [] => Some acc
  | c :: r =>
      match letter_digit c with
      | Some d => positional26 (acc * 26 + d) r
      | None => None
      end
  end.

Definition alph_value (s : string) : option Z :=
  match chars s with
  | [] => None
  | l => positional26 0 l
  end.

(** Bijective base-26 as the specification words it: 1 is a, 26 is z, 27 is
    aa.  The digits run over 1..26 and there is no zero. *)
Fixpoint bijective26_fuel (fuel : nat) (n : Z) (acc : list ascii) : list ascii :=
  match fuel with
  | O => acc
  | S f =>
      if n <=? 0 then acc
      else bijective26_fuel f ((n - 1) / 26) (of_code (65 + (n - 1) mod 26) :: acc)
  end.

Definition bijective26 (n : Z) : string :=
  join_chars (bijective26_fuel (S (Z.to_nat (Z.log2 n))) n []).

(** The digits of [n] in a radix, without fuel. *)
Inductive Digits (radix : Z) : Z -> list Z -> Prop :=
| Digits_small n : 0 <= n < radix -> Digits radix n [n]
| Digits_step n ds :
    radix <= n -> Digits radix (n / radix) ds ->
    Digits radix n (ds ++ [n mod radix])%list.

(** Horner value of a digit list. *)
Definition horner (radix : Z) (ds : list Z) : Z :=
  fold_left (fun a d => a * radix + d) ds 0.

(** The integers [lo, lo + 1, ..., lo + n - 1]. *)
Definition Zseq (lo : Z) (n : nat) : list Z :=
  map (fun i => lo + Z.of_nat i) (seq 0 n).

(** The letter that stands for the digit [d] of a base-26 numeral. *)
Definition upper_letter (d : Z) : ascii := of_code (65 + d).
Definition lower_letter (d : Z) : ascii := of_code (97 + d).


(** The words of a regular expression, with ([icase]) or without the
    flag [i]. *)
Inductive lang (icase : bool) : Regex.regex -> list ascii -> Prop :=
| lang_eps : lang icase Regex.Eps []
| lang_cls k c : Regex.class_mem icase k c = true -> lang icase (Regex.Cls k) [c]
| lang_cat r1 r2 s1 s2 :
    lang icase r1 s1 -> lang icase r2 s2 -> lang icase (Regex.Cat r1 r2) (s1 ++ s2)%list
| lang_alt_l r1 r2 s : lang icase r1 s -> lang icase (Regex.Alt r1 r2) s
| lang_alt_r r1 r2 s : lang icase r2 s -> lang icase (Regex.Alt r1 r2) s
| lang_star_nil r : lang icase (Regex.Star r) []
| lang_star_app r s1 s2 :
    lang icase r s1 -> lang icase (Regex.Star r) s2 ->
    lang icase (Regex.Star r) (s1 ++ s2)%list.

(** A valid label: a string of one or more digits, a Roman numeral (a
    non-empty word of the grammar of the source, in either letter case),
    or a single letter. *)
Definition valid_label (label : string) : Prop :=
  label <> ""
  /\ (forallb JS.is_digit (chars label) = true
      \/ lang true Prefix.ROMAN_PATTERN (chars label)
      \/ exists c, label = String c "" /\ JS.is_letter c = true).

(** The file, its parent, its grandparent, ... up to the vault root. *)
Fixpoint chain (f : Resolve.TAbstractFile) : list Resolve.TAbstractFile :=
  f :: match f with
       | Resolve.TFile _ (Some p) | Resolve.TFolder _ (Some p) _ => chain p
       | _ => []
       end.

(** The ancestors from the deepest (the file itself) to the shallowest. *)
Definition ancestors_upward (f : Resolve.TAbstractFile) : list Resolve.TAbstractFile :=
  if Resolve.isRootFolder f then [f] else chain f.

(** The first of the layers that sets the field [k]. *)
Fixpoint first_set (k : string) (layers : list (gmap string Resolve.val))
  : option Resolve.val :=
  match layers with
  | [] => None
  | o :: r =>
      match o !! k with
      | Some v => Some v
      | None => first_set k r
      end
  end.

(** Reading a field by priority: the local record, then the layers in the
    order given, then the defaults. *)
Definition priority_lookup (k : string) (local : gmap string Resolve.val)
  (layers : list (gmap string Resolve.val)) (defaults : gmap string Resolve.val)
  : option Resolve.val :=
  first_set k (local :: layers ++ [defaults]).

(** A loop that reads the settings of each header line in turn and has no
    handler: the first exception ends it. *)
Fixpoint read_in_sequence (lines : list string) : completion (list (option Callout.json)) :=
  match lines with
  | [] => Normal []
  | x :: r =>
      bind (Callout.readTheoremCalloutSettings x) (fun item =>
      bind (read_in_sequence r) (fun items => Normal (item :: items)))
  end.

(** The round-trip test for one number: the formatter returns a string,
    the string is in the subtractive grammar and reads back as the number. *)
Definition roman_roundtrip (n : Z) : bool :=
  match Numeral.toRomanUpper n with
  | Normal s =>
      Regex.test_anchored false Prefix.ROMAN_PATTERN s
      && match fromRoman s with
         | Some m => m =? n
         | None => false
         end
  | Throw _ => false
  end.

End Reference.

(* ===================================================================== *)
(** ** Concrete inputs *)
(* ===================================================================== *)

Module Examples.
Import JS Numeral Callout Resolve Title.

Definition plugin : Plugin :=
  {| profiles := {[ "English" := {[ "theorem" := "Theorem"; "lemma" := "Lemma" ]} ]} |}.

Definition file : FileInfo :=
  {| basename := "1-2. Groups"; fileCache := None |}.

(** A callout with [number: "auto"] that the indexer has not numbered yet. *)
Definition unindexed : ResolvedMathSettings :=
  {| profile := "English"; titleSuffix := "."; numberPrefix := "";
     numberSuffix := ""; numberInit := Some 1; numberStyle := Some arabic;
     inferNumberPrefix_on := true; inferNumberPrefixFromProperty := "";
     inferNumberPrefixParseSep := "-."; inferNumberPrefixPrintSep := ".";
     inferNumberPrefixUseFirstN := 2;
     type := "theorem"; number := "auto"; title := None; _index := None |}.

(** The same callout once it is the third of its type in the note. *)
Definition indexed : ResolvedMathSettings :=
  {| profile := "English"; titleSuffix := "."; numberPrefix := "";
     numberSuffix := ""; numberInit := Some 1; numberStyle := Some arabic;
     inferNumberPrefix_on := true; inferNumberPrefixFromProperty := "";
     inferNumberPrefixParseSep := "-."; inferNumberPrefixPrintSep := ".";
     inferNumberPrefixUseFirstN := 2;
     type := "theorem"; number := "auto"; title := None; _index := Some 2 |}.


(** The double quote, and a quoted word. *)
Definition dquote : string := String (ascii_of_nat 34) "".
Definition quoted (s : string) : string := dquote ++ s ++ dquote.

(** The settings of a callout as they are written in a note, and the
    header line that carries them. *)
Definition blob : string :=
  "{" ++ quoted "type" ++ ":" ++ quoted "theorem" ++ ","
      ++ quoted "number" ++ ":" ++ quoted "auto" ++ ","
      ++ quoted "setAsNoteMathLink" ++ ":false}".

Definition header : string := "> [!math|" ++ blob ++ "] Lagrange ".

Definition units (s : string) : list Z := map code (chars s).

(** A vault: the root folder, the folder [algebra], the note
    [algebra/groups.md]. *)
Definition root : TAbstractFile := TFolder "/" None true.
Definition algebra : TAbstractFile := TFolder "algebra" (Some root) false.
Definition groups : TAbstractFile := TFile "algebra/groups.md" (Some algebra).

(** A heap: the defaults at 1, their [rename] object at 2, the per-path
    store at 3 with records at 4 (root), 5 (the folder) and 6 (the note),
    and the record of a callout at 7. *)
Definition store : obj :=
  {[ "/" := VRef 4%positive;
     "algebra" := VRef 5%positive;
     "algebra/groups.md" := VRef 6%positive ]}.

Definition heap0 : heap :=
  {[ 1%positive := DEFAULT_SETTINGS "en" 2%positive;
     2%positive := ∅;
     3%positive := store;
     4%positive := {[ "numberStyle" := VStr "roman"; "titleSuffix" := VStr ":" ]};
     5%positive := {[ "numberStyle" := VStr "alph"; "numberInit" := VNum 5 ]};
     6%positive := {[ "numberStyle" := VStr "Alph" ]};
     7%positive := {[ "type" := VStr "theorem"; "number" := VStr "auto";
                      "numberInit" := VNum 9 ]} ]}.

End Examples.

(* ===================================================================== *)
(** ** Text, array and path utilities *)
(* ===================================================================== *)

Module Util.
Import JS.

Definition LF : ascii := ascii_of_nat 10.
Definition CR : ascii := ascii_of_nat 13.

(** [s.split(sep)] for a one-character string [sep]. *)
Fixpoint split_char_go (sep : ascii) (l cur : list ascii) : list string :=
  match l with
  | [] => [join_chars (rev cur)]
  | c :: r =>
      if Ascii.eqb c sep
      then join_chars (rev cur) :: split_char_go sep r []
      else split_char_go sep r (c :: cur)
  end.

Definition split_char (sep : ascii) (s : string) : list string :=
  split_char_go sep (chars s) [].

Definition increaseQuoteLevel (content : string) : string :=
  let lines := split_char LF content in
  let lines := map (fun line => "> " ++ line) lines in
  join_with (String LF "") lines.

(** [text.split(/\r?\n/)]: a line feed ends a piece, and takes with it the
    carriage return just before it. *)
Fixpoint splitIntoLines_go (l cur : list ascii) : list string :=
  match l with
  | [] => [join_chars (rev cur)]
  | c :: r =>
      if Ascii.eqb c LF then join_chars (rev cur) :: splitIntoLines_go r []
      else if Ascii.eqb c CR then
        match r with
        | d :: r' =>
            if Ascii.eqb d LF
            then join_chars (rev cur) :: splitIntoLines_go r' []
            else splitIntoLines_go r (c :: cur)
        | [] => splitIntoLines_go r (c :: cur)
        end
      else splitIntoLines_go r (c :: cur)
  end.

Definition splitIntoLines (text : string) : list string :=
  splitIntoLines_go (chars text) [].

Section Arrays.

Context {A : Type} `{EqDecision A}.

(** [array.indexOf(item)]: the first index that holds [item], or -1. *)
Fixpoint indexOf_from (item : A) (array : list A) (i : Z) : Z :=
  match array with
  | [] => -1
  | x :: r => if decide (x = item) then i else indexOf_from item r (i + 1)
  end.

Definition indexOf (item : A) (array : list A) : Z := indexOf_from item array 0.

(** [array.splice(start, deleteCount, ...items)]: the removed elements and
    the array as it is left.  A negative [start] counts from the end, and
    both numbers are clamped to the array. *)
Definition splice (array : list A) (start deleteCount : Z) (items : list A)
  : list A * list A :=
  let len := Z.of_nat (length array) in
  let actualStart := if start <? 0 then Z.max (len + start) 0 else Z.min start len in
  let actualDeleteCount := Z.min (Z.max deleteCount 0) (len - actualStart) in
  let s := Z.to_nat actualStart in
  let d := Z.to_nat actualDeleteCount in
  (firstn d (skipn s array),
   (firstn s array ++ items ++ skipn (s + d) array)%list).

(** [removeFrom(item, array)]: what [splice] returns, and the array after
    the call. *)
Definition removeFrom (item : A) (array : list A) : list A * list A :=
  splice array (indexOf item array) 1 [].

(** [insertAt(array, item, index)]: the array after the call. *)
Definition insertAt (array : list A) (item : A) (index : Z) : list A :=
  snd (splice array index 0 [item]).

End Arrays.

(** [s.lastIndexOf(c)] for a one-character string [c]. *)
Fixpoint lastIndexOf_go (c : ascii) (l : list ascii) (i found : Z) : Z :=
  match l with
  | [] => found
  | x :: r => lastIndexOf_go c r (i + 1) (if Ascii.eqb x c then i else found)
  end.

Definition lastIndexOf (c : ascii) (s : string) : Z :=
  lastIndexOf_go c (chars s) 0 (-1).

(** [s.slice(start, end)]; a negative index counts from the end. *)
Definition slice (s : string) (start finish : Z) : string :=
  let len := Z.of_nat (String.length s) in
  let clamp i := if i <? 0 then Z.max (len + i) 0 else Z.min i len in
  let a := clamp start in
  let b := clamp finish in
  join_chars (firstn (Z.to_nat (b - a)) (skipn (Z.to_nat a) (chars s))).

(** [s.slice(start)] *)
Definition slice_from (s : string) (start : Z) : string :=
  slice s start (Z.of_nat (String.length s)).

Definition pathToName (path : string) : string :=
  slice_from path (lastIndexOf "/" path + 1).

Definition pathToBaseName (path : string) : string :=
  let name := pathToName path in
  let index := lastIndexOf "." name in
  if 0 <=? index then slice name 0 index else name.

Record Range := { from : Z; to : Z }.

Definition hasOverlap (range1 range2 : Range) : bool :=
  (from range1 <=? to range2) && (from range2 <=? to range1).

End Util.

(* ===================================================================== *)
(** ** Files of the vault: containment, suggestion filters, local records *)
(* ===================================================================== *)

Module Vault.
Import JS Resolve.

(** [file1 == file2] on files: the vault holds one object per file, so two
    files are the same object when they are the same piece of data. *)
Fixpoint file_eqb (a b : TAbstractFile) : bool :=
  match a, b with
  | TFile p q, TFile p' q' =>
      String.eqb p p'
      && match q, q' with
         | Some x, Some y => file_eqb x y
         | None, None => true
         | _, _ => false
         end
  | TFolder p q r, TFolder p' q' r' =>
      String.eqb p p'
      && match q, q' with
         | Some x, Some y => file_eqb x y
         | None, None => true
         | _, _ => false
         end
      && Bool.eqb r r'
  | _, _ => false
  end.

(** [ancestor.isRoot()]: only a folder has the method. *)
Definition isRoot (f : TAbstractFile) : completion bool :=
  match f with
  | TFile _ _ => Throw TypeError
  | TFolder _ _ r => Normal r
  end.

(** The loop [while (true)] of [isEqualToOrChildOf], with a bound on the
    number of turns; [None]: the loop has not returned within the bound. *)
Fixpoint ancestor_loop (fuel : nat) (ancestor : option TAbstractFile)
  (file2 : TAbstractFile) : option (completion bool) :=
  match fuel with
  | O => None
  | S f =>
      match ancestor with
      | Some a =>
          if file_eqb a file2 then Some (Normal true)
          else
            match isRoot a with
            | Throw e => Some (Throw e)
            | Normal true => Some (Normal false)
            | Normal false => ancestor_loop f (parent a) file2
            end
      | None => ancestor_loop f None file2
      end
  end.

Definition isEqualToOrChildOf (fuel : nat) (file1 file2 : TAbstractFile)
  : option (completion bool) :=
  if file_eqb file1 file2 then Some (Normal true)
  else if isRootFolder file2 then Some (Normal true)
  else ancestor_loop fuel (parent file1) file2.

Definition isTFile (f : TAbstractFile) : bool :=
  match f with TFile _ _ => true | TFolder _ _ _ => false end.

Section Suggest.

(** [file.extension], which the host application computes. *)
Variable extension : TAbstractFile -> string.

(** [app.vault.getAbstractFileByPath] *)
Variable vault : gmap string TAbstractFile.

(** The loop of [FileSuggestModal.filterCallback] over the excluded paths. *)
Fixpoint excluded_loop (fuel : nat) (excludedFiles : list string)
  (abstractFile : TAbstractFile) : option (completion bool) :=
  match excludedFiles with
  | [] => Some (Normal true)
  | path :: rest =>
      match vault !! path with
      | Some file =>
          match isEqualToOrChildOf fuel abstractFile file with
          | None => None
          | Some (Throw e) => Some (Throw e)
          | Some (Normal true) => Some (Normal false)
          | Some (Normal false) => excluded_loop fuel rest abstractFile
          end
      | None => excluded_loop fuel rest abstractFile
      end
  end.

(** [FileSuggestModal.filterCallback]; [fuel] bounds the turns of each
    call of [isEqualToOrChildOf]. *)
Definition filterCallback (fuel : nat) (excludedFiles : list string)
  (abstractFile : TAbstractFile) : option (completion bool) :=
  if isTFile abstractFile && negb (String.eqb (extension abstractFile) "md")
  then Some (Normal false)
  else if isRootFolder abstractFile then Some (Normal false)
  else excluded_loop fuel excludedFiles abstractFile.

End Suggest.

(** The first statement of [ContextSettingModal.onOpen]: a file without a
    record in the per-path store (the property is absent, or holds
    [undefined]) gets an empty one. *)
Definition ensureLocalSettings (plugin_settings : loc) (file : TAbstractFile)
  (h : heap) : heap :=
  match h !! plugin_settings with
  | Some store =>
      match store !! path file with
      | None | Some VUndef =>
          let '(h1, l) := new_object h in
          <[plugin_settings := <[path file := VRef l]> store]> h1
      | Some _ => h
      end
  | None => h
  end.

End Vault.

(* ===================================================================== *)
(** ** Further reference notions *)
(* ===================================================================== *)

Module Notions.
Import JS Numeral Regex Resolve Vault.

(** The thousands as a run of M, then the hundreds, tens and units read in
    the table. *)
Definition roman_closed_form (n : Z) : string :=
  repeat_string (Z.to_nat (n / 1000)) "M"
  ++ nth (Z.to_nat ((n / 100) mod 10)) ROMAN ""
  ++ nth (Z.to_nat (10 + (n / 10) mod 10)) ROMAN ""
  ++ nth (Z.to_nat (20 + n mod 10)) ROMAN "".

(** A pattern without negated class. *)
Fixpoint plain_classes (r : regex) : bool :=
  match r with
  | Void | Eps => true
  | Cls k => negb (negated k)
  | Cat r1 r2 | Alt r1 r2 => plain_classes r1 && plain_classes r2
  | Star r1 => plain_classes r1
  end.

(** A value that is not the reference [l]. *)
Definition not_ref (l : loc) (v : option val) : Prop :=
  match v with
  | Some (VRef l') => l' <> l
  | _ => True
  end.

(** No character of [l] is [c]. *)
Definition lacks (c : ascii) (l : list ascii) : Prop :=
  existsb (fun x => Ascii.eqb x c) l = false.

(** A string that neither starts nor ends with white space. *)
Definition no_outer_space (s : string) : Prop :=
  match chars s with
  | c :: _ => is_space c = false
  | [] => True
  end
  /\ match rev (chars s) with
     | c :: _ => is_space c = false
     | [] => True
     end.

(** Every element of the list stands in the relation [R] to the next. *)
Fixpoint adjacent {A} (R : A -> A -> bool) (l : list A) : bool :=
  match l with
  | a :: r =>
      match r with
      | b :: _ => R a b && adjacent R r
      | [] => true
      end
  | [] => true
  end.

(** [a] is the parent of [b]. *)
Definition is_parent_of (a b : TAbstractFile) : bool :=
  match parent b with
  | Some p => file_eqb p a
  | None => false
  end.

(** A chain of folders that ends at a parentless folder flagged as the
    root, and meets no such flag before. *)
Fixpoint under_root (a : TAbstractFile) : bool :=
  match a with
  | TFile _ _ => false
  | TFolder _ (Some p) root => negb root && under_root p
  | TFolder _ None root => root
  end.

(** A file or folder that sits in a vault, below its root. *)
Definition well_placed (f : TAbstractFile) : bool :=
  match parent f with
  | Some p => under_root p
  | None => false
  end.

(** The strict ancestors: the parent, its parent, ... *)
Definition strict_ancestors (f : TAbstractFile) : list TAbstractFile :=
  match parent f with
  | Some p => Reference.chain p
  | None => []
  end.

End Notions.

Import JS Numeral Regex Prefix Callout Resolve Title Reference.

(* ===================================================================== *)
(** ** Properties of the numeral formatters *)
(* ===================================================================== *)

Lemma Zseq_In lo n z : lo <= z < lo + Z.of_nat n -> In z (Zseq lo n).
Proof.
  intros Hz. unfold Zseq. apply in_map_iff.
  exists (Z.to_nat (z - lo)). split; [lia|].
  apply in_seq. lia.
Qed.

Lemma Zseq_forallb (P : Z -> bool) lo n :
  forallb P (Zseq lo n) = true ->
  forall z, lo <= z < lo + Z.of_nat n -> P z = true.
Proof.
  intros Hall z Hz. rewrite forallb_forall in Hall.
  apply Hall, Zseq_In, Hz.
Qed.

Lemma roman_roundtrip_all : forallb roman_roundtrip (Zseq 1 3999) = true.
Proof. vm_cast_no_check (eq_refl true). Qed.

(** C5.  For every [n] in 1..3999, [toRomanUpper n] returns a string of
    the classic subtractive grammar (the grammar [areValidLabels] itself
    uses, read case-sensitively) and reading that string back as a Roman
    numeral gives [n]. *)
Theorem toRomanUpper_roundtrip (n : Z) (Hn : 1 <= n <= 3999) :
  exists s,
    toRomanUpper n = Normal s
    /\ test_anchored false ROMAN_PATTERN s = true
    /\ fromRoman s = Some n.
Proof.
  pose proof (Zseq_forallb _ _ _ roman_roundtrip_all n ltac:(lia)) as H.
  unfold roman_roundtrip in H.
  destruct (toRomanUpper n) as [s|e]; [|discriminate].
  apply andb_prop in H as [Hg Hv].
  exists s. repeat split; [exact Hg|].
  destruct (fromRoman s) as [m|]; [|discriminate].
  apply Z.eqb_eq in Hv. now subst.
Qed.

Lemma toRomanUpper_roundtrip_witness :
  exists s,
    toRomanUpper 1994 = Normal s
    /\ test_anchored false ROMAN_PATTERN s = true
    /\ fromRoman s = Some 1994.
Proof. apply (toRomanUpper_roundtrip 1994). lia. Defined.

(** *** Digits *)

Lemma digits_fuel_Digits radix (Hr : 2 <= radix) :
  forall f n acc,
    0 <= n < 2 ^ Z.of_nat (S f) ->
    exists ds, Digits radix n ds /\ digits_fuel (S f) radix n acc = (ds ++ acc)%list.
Proof.
  induction f as [|f IH]; intros n acc Hn.
  - exists [n]. change (2 ^ Z.of_nat 1) with 2 in Hn.
    simpl. destruct (Z.ltb_spec n radix); [|lia].
    split; [constructor; lia|reflexivity].
  - cbn [digits_fuel]. destruct (Z.ltb_spec n radix) as [Hlt|Hge].
    + exists [n]. split; [constructor; lia|reflexivity].
    + assert (Hq : 0 <= n / radix < 2 ^ Z.of_nat (S f)).
      { split; [apply Z.div_pos; lia|].
        apply Z.div_lt_upper_bound; [lia|].
        replace (Z.of_nat (S (S f))) with (Z.succ (Z.of_nat (S f))) in Hn by lia.
        rewrite Z.pow_succ_r in Hn by lia. nia. }
      destruct (IH (n / radix) (n mod radix :: acc) Hq) as (ds & Hds & Heq).
      exists (ds ++ [n mod radix])%list. split.
      * now constructor.
      * cbn [digits_fuel] in Heq. rewrite Heq. now rewrite <- app_assoc.
Qed.

Lemma digits_Digits radix n : 2 <= radix -> 0 <= n -> Digits radix n (digits radix n).
Proof.
  intros Hr Hn. unfold digits.
  assert (Hb : 0 <= n < 2 ^ Z.of_nat (S (Z.to_nat (Z.log2 n)))).
  { split; [exact Hn|].
    replace (Z.of_nat (S (Z.to_nat (Z.log2 n)))) with (Z.succ (Z.log2 n))
      by (pose proof (Z.log2_nonneg n); lia).
    destruct (Z.eq_dec n 0) as [->|Hne]; [reflexivity|].
    apply Z.log2_spec. lia. }
  destruct (digits_fuel_Digits radix Hr _ n [] Hb) as (ds & Hds & Heq).
  rewrite Heq, app_nil_r. exact Hds.
Qed.

Lemma horner_snoc radix ds d : horner radix (ds ++ [d]) = horner radix ds * radix + d.
Proof. unfold horner. now rewrite fold_left_app. Qed.

Lemma Digits_sound radix n ds :
  0 < radix -> Digits radix n ds ->
  horner radix ds = n /\ Forall (fun d => 0 <= d < radix) ds /\ ds <> [].
Proof.
  intros Hr H. induction H as [n Hn|n ds Hge Hd (IHv & IHr & IHne)].
  - split; [unfold horner; simpl; lia|].
    split; [constructor; [lia|constructor]|discriminate].
  - split; [|split].
    + rewrite horner_snoc, IHv. pose proof (Z.div_mod n radix). lia.
    + apply Forall_app. split; [exact IHr|].
      constructor; [apply Z.mod_pos_bound; lia|constructor].
    + intros E. now apply app_eq_nil in E as [_ E].
Qed.

Lemma Digits_fun radix n ds1 :
  Digits radix n ds1 -> forall ds2, Digits radix n ds2 -> ds1 = ds2.
Proof.
  induction 1 as [n Hn|n ds Hge Hd IH]; intros ds2 H2; inversion H2; subst;
    try lia; try reflexivity.
  f_equal. now apply IH.
Qed.

Lemma digits_step radix n :
  2 <= radix -> radix <= n ->
  digits radix n = (digits radix (n / radix) ++ [n mod radix])%list.
Proof.
  intros Hr Hn.
  apply (Digits_fun radix n); [apply digits_Digits; lia|].
  constructor; [exact Hn|].
  apply digits_Digits; [lia|]. apply Z.div_pos; lia.
Qed.

(** *** The alphabetic formatters *)

Lemma base26_digit_letter :
  forall d, 0 <= d < 26 ->
    ALPH_at (parseInt1 (digit_char d) 26) = Some (upper_letter d)
    /\ letter_digit (upper_letter d) = Some d
    /\ lower_char (upper_letter d) = lower_letter d
    /\ letter_digit (lower_letter d) = Some d
    /\ is_upper (upper_letter d) = true
    /\ is_lower (lower_letter d) = true.
Proof.
  intros d Hd.
  assert (H : In d (Zseq 0 26)) by (apply Zseq_In; lia).
  vm_compute in H.
  repeat (destruct H as [<-|H]; [vm_compute; repeat split; reflexivity|]).
  destruct H.
Qed.

Lemma join_defined_Some l :
  join_defined (map Some l) = join_chars l.
Proof.
  unfold join_defined, join, join_chars. induction l as [|c l IH]; [reflexivity|].
  simpl. now rewrite IH.
Qed.

Lemma chars_join_chars l : chars (join_chars l) = l.
Proof. apply list_ascii_of_string_of_list_ascii. Qed.

Lemma toLowerCase_join_chars l :
  toLowerCase (join_chars l) = join_chars (map lower_char l).
Proof. induction l as [|c l IH]; [reflexivity|]. simpl. now rewrite IH. Qed.

Lemma toAlphUpper_digits n :
  1 <= n ->
  toAlphUpper n = join_chars (map upper_letter (digits 26 (n - 1)))
  /\ toAlphLower n = join_chars (map lower_letter (digits 26 (n - 1))).
Proof.
  intros Hn.
  destruct (Digits_sound 26 _ _ ltac:(lia) (digits_Digits 26 (n - 1) ltac:(lia) ltac:(lia)))
    as (_ & Hr & _).
  assert (Hu : toAlphUpper n = join_chars (map upper_letter (digits 26 (n - 1)))).
  { unfold toAlphUpper, toStringRadix.
    destruct (Z.ltb_spec (n - 1) 0); [lia|].
    rewrite Z.abs_eq by lia. rewrite chars_join_chars, map_map.
    rewrite <- join_defined_Some, map_map. f_equal.
    apply map_ext_in. intros d Hd.
    apply base26_digit_letter. exact (proj1 (List.Forall_forall _ _) Hr d Hd). }
  split; [exact Hu|].
  unfold toAlphLower. rewrite Hu, toLowerCase_join_chars, map_map. f_equal.
  apply map_ext_in. intros d Hd.
  apply base26_digit_letter. exact (proj1 (List.Forall_forall _ _) Hr d Hd).
Qed.

Lemma positional26_letters (letter : Z -> ascii) ds :
  (forall d, 0 <= d < 26 -> letter_digit (letter d) = Some d) ->
  Forall (fun d => 0 <= d < 26) ds ->
  forall acc,
    positional26 acc (map letter ds) = Some (fold_left (fun a d => a * 26 + d) ds acc).
Proof.
  intros Hl Hr. induction Hr as [|d ds Hd _ IH]; intros acc; [reflexivity|].
  simpl. now rewrite (Hl d Hd), IH.
Qed.

Lemma alph_value_letters (letter : Z -> ascii) ds :
  (forall d, 0 <= d < 26 -> letter_digit (letter d) = Some d) ->
  Forall (fun d => 0 <= d < 26) ds -> ds <> [] ->
  alph_value (join_chars (map letter ds)) = Some (horner 26 ds).
Proof.
  intros Hl Hr Hne. unfold alph_value. rewrite chars_join_chars.
  pose proof (positional26_letters letter ds Hl Hr 0) as H.
  destruct ds as [|d ds]; [congruence|].
  exact H.
Qed.

Lemma alph_small_bijective :
  forallb (fun n => String.eqb (toAlphUpper n) (bijective26 n)) (Zseq 1 26) = true.
Proof. vm_compute. reflexivity. Qed.

Lemma toAlph_values n :
  1 <= n ->
  alph_value (toAlphUpper n) = Some (n - 1)
  /\ alph_value (toAlphLower n) = Some (n - 1).
Proof.
  intros Hn.
  destruct (toAlphUpper_digits n Hn) as [Hu Hl].
  destruct (Digits_sound 26 _ _ ltac:(lia) (digits_Digits 26 (n - 1) ltac:(lia) ltac:(lia)))
    as (Hv & Hr & Hne).
  rewrite Hu, Hl. split.
  - rewrite alph_value_letters; [now rewrite Hv| |exact Hr|exact Hne].
    intros d Hd. now apply base26_digit_letter.
  - rewrite alph_value_letters; [now rewrite Hv| |exact Hr|exact Hne].
    intros d Hd. now apply base26_digit_letter.
Qed.

Lemma toAlph_letters n :
  1 <= n ->
  forallb is_upper (chars (toAlphUpper n)) = true
  /\ forallb is_lower (chars (toAlphLower n)) = true.
Proof.
  intros Hn.
  destruct (toAlphUpper_digits n Hn) as [Hu Hl].
  destruct (Digits_sound 26 _ _ ltac:(lia) (digits_Digits 26 (n - 1) ltac:(lia) ltac:(lia)))
    as (_ & Hr & _).
  rewrite Hu, Hl, !chars_join_chars.
  split; apply forallb_forall; intros c Hc;
    apply in_map_iff in Hc as (d & <- & Hd);
    apply base26_digit_letter; exact (proj1 (List.Forall_forall _ _) Hr d Hd).
Qed.

(** C1, counterexample.  Beyond 26 the alphabetic formatters are not
    bijective base-26: 27 is written ba and 28 is written BB. *)
Lemma toAlph_examples_differ :
  toAlphLower 27 = "ba" /\ toAlphLower 27 <> "aa"
  /\ toAlphUpper 28 = "BB" /\ toAlphUpper 28 <> "AB".
Proof. repeat split; try reflexivity; discriminate. Qed.

(** The formatters agree with bijective base-26 on one-letter numerals. *)
Lemma toAlphUpper_bijective_upto_26 n :
  1 <= n <= 26 -> toAlphUpper n = bijective26 n.
Proof.
  intros Hn.
  pose proof (Zseq_forallb _ _ _ alph_small_bijective n ltac:(lia)) as H.
  now apply String.eqb_eq in H.
Qed.

Lemma bijective26_fuel_suffix f :
  forall n acc, exists pre, bijective26_fuel f n acc = (pre ++ acc)%list.
Proof.
  induction f as [|f IH]; intros n acc; cbn [bijective26_fuel].
  - now exists [].
  - destruct (n <=? 0); [now exists []|].
    destruct (IH ((n - 1) / 26) (of_code (65 + (n - 1) mod 26) :: acc)) as [pre ->].
    exists (pre ++ [of_code (65 + (n - 1) mod 26)])%list.
    now rewrite <- app_assoc.
Qed.

Lemma bijective26_last_two n :
  27 <= n ->
  exists pre,
    bijective26 n
    = join_chars ((pre ++ [upper_letter (((n - 1) / 26 - 1) mod 26)])
                    ++ [upper_letter ((n - 1) mod 26)]).
Proof.
  intros Hn. unfold bijective26.
  assert (Hl : 4 <= Z.log2 n) by (apply Z.log2_le_pow2; lia).
  destruct (Z.to_nat (Z.log2 n)) as [|f] eqn:Ef; [lia|].
  assert (Hm : 1 <= (n - 1) / 26) by (apply Z.div_le_lower_bound; lia).
  cbn [bijective26_fuel].
  destruct (Z.leb_spec n 0); [lia|].
  destruct (Z.leb_spec ((n - 1) / 26) 0); [lia|].
  destruct (bijective26_fuel_suffix f (((n - 1) / 26 - 1) / 26)
              [of_code (65 + ((n - 1) / 26 - 1) mod 26); of_code (65 + (n - 1) mod 26)])
    as [pre ->].
  exists pre. now rewrite <- app_assoc.
Qed.

Lemma Digits_last radix n ds :
  Digits radix n ds -> exists pre, ds = (pre ++ [n mod radix])%list.
Proof.
  intros H. destruct H as [n Hs|n ds Hge Hd].
  - exists []. now rewrite Z.mod_small.
  - now exists ds.
Qed.

Lemma digits26_last_two k :
  26 <= k ->
  exists pre, digits 26 k = ((pre ++ [(k / 26) mod 26]) ++ [k mod 26])%list.
Proof.
  intros Hk. rewrite (digits_step 26 k) by lia.
  assert (Hq : 0 <= k / 26) by (apply Z.div_pos; lia).
  destruct (Digits_last 26 _ _ (digits_Digits 26 (k / 26) ltac:(lia) Hq)) as [pre ->].
  now exists pre.
Qed.

Lemma shifted_digit_differs m : (m - 1) mod 26 <> m mod 26.
Proof.
  pose proof (Z.div_mod m 26 ltac:(lia)).
  pose proof (Z.div_mod (m - 1) 26 ltac:(lia)).
  pose proof (Z.mod_pos_bound m 26 ltac:(lia)).
  pose proof (Z.mod_pos_bound (m - 1) 26 ltac:(lia)).
  lia.
Qed.

(** Beyond 26 the formatters never write the bijective numeral: their
    last letter but one stands for the next digit of [n - 1], where the
    bijective numeral has the digit of the quotient less one. *)
Lemma toAlph_differs_beyond_26 n :
  27 <= n ->
  toAlphUpper n <> bijective26 n
  /\ toAlphLower n <> toLowerCase (bijective26 n).
Proof.
  intros Hn.
  destruct (toAlphUpper_digits n ltac:(lia)) as [Hu Hl].
  destruct (digits26_last_two (n - 1) ltac:(lia)) as [dpre Hd].
  destruct (bijective26_last_two n Hn) as [bpre Hb].
  set (m := (n - 1) / 26) in *.
  pose proof (Z.mod_pos_bound m 26 ltac:(lia)) as B1.
  pose proof (Z.mod_pos_bound (m - 1) 26 ltac:(lia)) as B2.
  pose proof (shifted_digit_differs m) as Hne.
  split; intros E.
  - rewrite Hu, Hb, Hd in E. apply (f_equal chars) in E.
    rewrite !chars_join_chars, !map_app in E. cbn [map] in E.
    apply app_inj_tail in E as [E _]. apply app_inj_tail in E as [_ E].
    apply (f_equal letter_digit) in E.
    destruct (base26_digit_letter _ B1) as (_ & E1 & _).
    destruct (base26_digit_letter _ B2) as (_ & E2 & _).
    rewrite E1, E2 in E. congruence.
  - rewrite Hl, Hb, Hd, toLowerCase_join_chars in E. apply (f_equal chars) in E.
    rewrite !chars_join_chars, !map_app in E. cbn [map] in E.
    apply app_inj_tail in E as [E _]. apply app_inj_tail in E as [_ E].
    destruct (base26_digit_letter _ B2) as (_ & _ & El & _). rewrite El in E.
    apply (f_equal letter_digit) in E.
    destruct (base26_digit_letter _ B1) as (_ & _ & _ & E1 & _).
    destruct (base26_digit_letter _ B2) as (_ & _ & _ & E2 & _).
    rewrite E1, E2 in E. congruence.
Qed.

(** C1, amended.  For every safe integer [n >= 1] the alphabetic
    formatters write the positional base-26 numeral of [n - 1], digit by
    digit, with the letters A-Z (upper) or a-z (lower) for the digits
    0..25; the result is the bijective base-26 numeral of [n] exactly when
    [n <= 26].  In particular 1 is a, 26 is z, 27 is ba and 28 (upper) is
    BB. *)
Theorem toAlph_positional_base26 (n : Z) (Hn : 1 <= n <= MAX_SAFE_INTEGER) :
  (exists ds, Digits 26 (n - 1) ds
              /\ toAlphUpper n = join_chars (map upper_letter ds)
              /\ toAlphLower n = join_chars (map lower_letter ds))
  /\ alph_value (toAlphUpper n) = Some (n - 1)
  /\ alph_value (toAlphLower n) = Some (n - 1)
  /\ (toAlphUpper n = bijective26 n <-> n <= 26)
  /\ (toAlphLower n = toLowerCase (bijective26 n) <-> n <= 26)
  /\ toAlphLower 1 = "a" /\ toAlphLower 26 = "z"
  /\ toAlphLower 27 = "ba" /\ toAlphUpper 28 = "BB".
Proof.
  destruct (toAlph_values n (proj1 Hn)) as [Vu Vl].
  destruct (toAlphUpper_digits n (proj1 Hn)) as [Du Dl].
  split.
  { exists (digits 26 (n - 1)). split; [apply digits_Digits; lia|]. now split. }
  split; [exact Vu|]. split; [exact Vl|].
  split; [|split].
  - split.
    + intros E. destruct (Z.le_gt_cases n 26) as [H|H]; [exact H|].
      now destruct (toAlph_differs_beyond_26 n ltac:(lia)) as [Hd _].
    + intros H. apply toAlphUpper_bijective_upto_26. lia.
  - split.
    + intros E. destruct (Z.le_gt_cases n 26) as [H|H]; [exact H|].
      now destruct (toAlph_differs_beyond_26 n ltac:(lia)) as [_ Hd].
    + intros H. unfold toAlphLower.
      now rewrite (toAlphUpper_bijective_upto_26 n) by lia.
  - repeat split; reflexivity.
Qed.

Lemma toAlph_positional_base26_witness :
  (exists ds, Digits 26 (27 - 1) ds
              /\ toAlphUpper 27 = join_chars (map upper_letter ds)
              /\ toAlphLower 27 = join_chars (map lower_letter ds))
  /\ alph_value (toAlphUpper 27) = Some (27 - 1)
  /\ alph_value (toAlphLower 27) = Some (27 - 1)
  /\ (toAlphUpper 27 = bijective26 27 <-> 27 <= 26)
  /\ (toAlphLower 27 = toLowerCase (bijective26 27) <-> 27 <= 26)
  /\ toAlphLower 1 = "a" /\ toAlphLower 26 = "z"
  /\ toAlphLower 27 = "ba" /\ toAlphUpper 28 = "BB".
Proof. apply (toAlph_positional_base26 27). unfold MAX_SAFE_INTEGER. lia. Defined.

(** The encoding is injective on the positive integers. *)
Lemma toAlphUpper_injective n m :
  1 <= n -> 1 <= m -> toAlphUpper n = toAlphUpper m -> n = m.
Proof.
  intros Hn Hm E.
  destruct (toAlph_values n Hn) as (Vn & _).
  destruct (toAlph_values m Hm) as (Vm & _).
  rewrite E, Vm in Vn. injection Vn. lia.
Qed.

(** *** The Roman formatters outside the supported range *)

Lemma pop_snoc {A} (l : list A) x : pop (l ++ [x]) = (Some x, l).
Proof. unfold pop. rewrite rev_app_distr. simpl. now rewrite rev_involutive. Qed.

Lemma romanLoop_snoc i l x roman :
  romanLoop (S i) (l ++ [x]) roman =
  romanLoop i l
    (ROMAN_at (option_map (fun v => v + Z.of_nat i * 10) (ToNumber1 (Some x))) ++ roman).
Proof. cbn [romanLoop]. now rewrite pop_snoc. Qed.


Lemma decimal_digit_value d :
  0 <= d < 10 -> digit_value 10 (digit_char d) = Some d.
Proof.
  intros Hd.
  assert (H : In d (Zseq 0 10)) by (apply Zseq_In; lia).
  vm_compute in H.
  repeat (destruct H as [<-|H]; [reflexivity|]).
  destruct H.
Qed.

Lemma digits_value_digit_chars ds :
  Forall (fun d => 0 <= d < 10) ds ->
  forall acc,
    digits_value 10 acc (map digit_char ds)
    = Some (fold_left (fun a d => a * 10 + d) ds acc).
Proof.
  induction 1 as [|d ds Hd _ IH]; intros acc; [reflexivity|].
  simpl. now rewrite decimal_digit_value, IH.
Qed.




Lemma toRomanLower_returns n : returns (toRomanLower n) = returns (toRomanUpper n).
Proof. unfold toRomanLower. now destruct (toRomanUpper n). Qed.

Lemma toRomanUpper_throws_RangeError n e :
  toRomanUpper n = Throw e -> e = RangeError.
Proof.
  unfold toRomanUpper. destruct (romanLoop 3 _ "") as [ds roman].
  unfold Array_join.
  destruct (option_map _ (ToNumber (join_chars ds))) as [k|]; cbn [bind].
  - destruct ((0 <=? k) && (k <? 2 ^ 32)); cbn [bind]; congruence.
  - congruence.
Qed.

Lemma toRoman_not_returning n :
  returns (toRomanUpper n) = false ->
  toRomanUpper n = Throw RangeError /\ toRomanLower n = Throw RangeError.
Proof.
  intros H. unfold toRomanLower.
  destruct (toRomanUpper n) as [s|e] eqn:E; [discriminate|].
  apply toRomanUpper_throws_RangeError in E as ->. now split.
Qed.


(* ===================================================================== *)
(** ** The matcher decides the words of a pattern *)
(* ===================================================================== *)

Section RegexFacts.

Variable icase : bool.

Create HintDb regex.
Local Hint Constructors lang : regex.

Lemma lang_Void_inv s : ~ lang icase Void s.
Proof. intros H. inversion H. Qed.

Lemma lang_Eps_inv s : lang icase Eps s -> s = [].
Proof. intros H. now inversion H. Qed.

Lemma lang_Cat_inv r1 r2 s :
  lang icase (Cat r1 r2) s ->
  exists s1 s2, s = (s1 ++ s2)%list /\ lang icase r1 s1 /\ lang icase r2 s2.
Proof. intros H. inversion H; subst. eauto. Qed.

Lemma lang_Alt_inv r1 r2 s :
  lang icase (Alt r1 r2) s -> lang icase r1 s \/ lang icase r2 s.
Proof. intros H. inversion H; subst; auto. Qed.

Lemma cat_lang r1 r2 s : lang icase (cat r1 r2) s <-> lang icase (Cat r1 r2) s.
Proof.
  assert (HV1 : forall r, lang icase Void s <-> lang icase (Cat Void r) s).
  { intros r. split; intros H; [now apply lang_Void_inv in H|].
    apply lang_Cat_inv in H as (s1 & s2 & _ & H & _). now apply lang_Void_inv in H. }
  assert (HV2 : forall r, lang icase Void s <-> lang icase (Cat r Void) s).
  { intros r. split; intros H; [now apply lang_Void_inv in H|].
    apply lang_Cat_inv in H as (s1 & s2 & _ & _ & H). now apply lang_Void_inv in H. }
  assert (HE : forall r, lang icase r s <-> lang icase (Cat Eps r) s).
  { intros r. split; intros H.
    - change s with ([] ++ s)%list. eauto with regex.
    - apply lang_Cat_inv in H as (s1 & s2 & -> & H1 & H2).
      now apply lang_Eps_inv in H1 as ->. }
  destruct r1, r2; cbn [cat]; auto; reflexivity.
Qed.

Lemma alt_lang r1 r2 s : lang icase (alt r1 r2) s <-> lang icase (Alt r1 r2) s.
Proof.
  assert (HV1 : forall r, lang icase r s <-> lang icase (Alt Void r) s).
  { intros r. split; intros H; [eauto with regex|].
    apply lang_Alt_inv in H as [H|H]; [now apply lang_Void_inv in H|exact H]. }
  assert (HV2 : forall r, lang icase r s <-> lang icase (Alt r Void) s).
  { intros r. split; intros H; [eauto with regex|].
    apply lang_Alt_inv in H as [H|H]; [exact H|now apply lang_Void_inv in H]. }
  destruct r1, r2; cbn [alt]; auto; reflexivity.
Qed.

Lemma nullable_lang r : nullable r = true <-> lang icase r [].
Proof.
  induction r as [| |k|r1 IH1 r2 IH2|r1 IH1 r2 IH2|r IH]; cbn [nullable].
  - split; [discriminate|]. intros H. now apply lang_Void_inv in H.
  - split; eauto with regex.
  - split; [discriminate|]. intros H. inversion H.
  - rewrite andb_true_iff, IH1, IH2. split.
    + intros [H1 H2]. change (@nil ascii) with ([] ++ @nil ascii)%list. eauto with regex.
    + intros H. apply lang_Cat_inv in H as (s1 & s2 & E & H1 & H2).
      symmetry in E. apply app_eq_nil in E as [-> ->]. now split.
  - rewrite orb_true_iff, IH1, IH2. split.
    + intros [H|H]; eauto with regex.
    + apply lang_Alt_inv.
  - split; eauto with regex.
Qed.

(** A non-empty word of a starred pattern starts with a non-empty word of
    the pattern. *)
Lemma lang_Star_cons_inv r c s :
  lang icase (Star r) (c :: s) ->
  exists s1 s2, s = (s1 ++ s2)%list /\ lang icase r (c :: s1) /\ lang icase (Star r) s2.
Proof.
  intros H. remember (Star r) as r' eqn:Er. remember (c :: s) as w eqn:Ew.
  revert c s Ew. induction H as [| | | | | |r0 s1 s2 H1 _ H2 IH2]; try discriminate.
  injection Er as ->. intros c s Ew.
  destruct s1 as [|c1 s1].
  - now apply IH2.
  - cbn [app] in Ew. injection Ew as -> <-. eauto.
Qed.

Lemma der_lang c r : forall s, lang icase (der icase c r) s <-> lang icase r (c :: s).
Proof.
  induction r as [| |k|r1 IH1 r2 IH2|r1 IH1 r2 IH2|r IH]; intros s; cbn [der].
  - split; intros H; now apply lang_Void_inv in H.
  - split; intros H; [now apply lang_Void_inv in H|inversion H].
  - destruct (class_mem icase k c) eqn:E; split; intros H.
    + apply lang_Eps_inv in H as ->. eauto with regex.
    + inversion H; subst. eauto with regex.
    + now apply lang_Void_inv in H.
    + inversion H; subst. congruence.
  - assert (Hcat : lang icase (cat (der icase c r1) r2) s <->
                   exists s1 s2, s = (s1 ++ s2)%list
                                 /\ lang icase r1 (c :: s1) /\ lang icase r2 s2).
    { rewrite cat_lang. split.
      - intros H. apply lang_Cat_inv in H as (s1 & s2 & -> & H1 & H2).
        apply IH1 in H1. eauto.
      - intros (s1 & s2 & -> & H1 & H2). apply IH1 in H1. eauto with regex. }
    assert (Hinv : lang icase (Cat r1 r2) (c :: s) <->
                   (exists s1 s2, s = (s1 ++ s2)%list
                                  /\ lang icase r1 (c :: s1) /\ lang icase r2 s2)
                   \/ (lang icase r1 [] /\ lang icase r2 (c :: s))).
    { split.
      - intros H. apply lang_Cat_inv in H as (s1 & s2 & E & H1 & H2).
        destruct s1 as [|c1 s1]; cbn [app] in E.
        + subst s2. now right.
        + injection E as <- ->. left. eauto.
      - intros [(s1 & s2 & -> & H1 & H2)|[H1 H2]].
        + change (c :: s1 ++ s2)%list with ((c :: s1) ++ s2)%list. eauto with regex.
        + change (c :: s) with ([] ++ c :: s)%list. eauto with regex. }
    rewrite Hinv. destruct (nullable r1) eqn:En.
    + rewrite alt_lang. split.
      * intros H. apply lang_Alt_inv in H as [H|H].
        -- left. now apply Hcat.
        -- right. split; [now apply nullable_lang|now apply IH2].
      * intros [H|[_ H]].
        -- apply lang_alt_l. now apply Hcat.
        -- apply lang_alt_r. now apply IH2.
    + rewrite Hcat. split; [now left|].
      intros [H|[H _]]; [exact H|].
      apply nullable_lang in H. congruence.
  - rewrite alt_lang. split.
    + intros H. apply lang_Alt_inv in H as [H|H];
        [apply lang_alt_l; now apply IH1|apply lang_alt_r; now apply IH2].
    + intros H. apply lang_Alt_inv in H as [H|H];
        [apply lang_alt_l; now apply IH1|apply lang_alt_r; now apply IH2].
  - rewrite cat_lang. split.
    + intros H. apply lang_Cat_inv in H as (s1 & s2 & -> & H1 & H2).
      apply IH in H1.
      change (c :: s1 ++ s2)%list with ((c :: s1) ++ s2)%list. eauto with regex.
    + intros H. apply lang_Star_cons_inv in H as (s1 & s2 & -> & H1 & H2).
      apply IH in H1. eauto with regex.
Qed.

(** The matcher accepts exactly the words of the pattern. *)
Lemma matches_lang s : forall r, matches icase r s = true <-> lang icase r s.
Proof.
  induction s as [|c s IH]; intros r; cbn [matches].
  - apply nullable_lang.
  - rewrite IH. apply der_lang.
Qed.

End RegexFacts.

Lemma letter_class_mem c :
  class_mem true {| negated := false; ranges := [(code "a", code "z")] |} c
  = is_letter c.
Proof. destruct c as [[] [] [] [] [] [] [] []]; reflexivity. Qed.

Lemma digit_class_mem c :
  class_mem false {| negated := false; ranges := [(code "0", code "9")] |} c
  = is_digit c.
Proof. destruct c as [[] [] [] [] [] [] [] []]; reflexivity. Qed.

Lemma matches_Void icase s : matches icase Void s = false.
Proof. induction s as [|c s IH]; [reflexivity|exact IH]. Qed.

Lemma matches_Eps icase s :
  matches icase Eps s = match s with [] => true | _ => false end.
Proof. destruct s; [reflexivity|apply matches_Void]. Qed.

Lemma matches_digit_star s :
  matches false (Star (range "0" "9")) s = forallb is_digit s.
Proof.
  induction s as [|c s IH]; [reflexivity|].
  cbn [matches der forallb]. unfold range at 1. cbn [der].
  rewrite digit_class_mem. destruct (is_digit c); cbn [cat andb].
  - exact IH.
  - apply matches_Void.
Qed.

(** [/^[0-9]+$/] accepts the non-empty strings of digits. *)
Lemma ARABIC_PATTERN_spec label :
  test_anchored false ARABIC_PATTERN label
  = truthy label && forallb is_digit (chars label).
Proof.
  unfold test_anchored, ARABIC_PATTERN, plus.
  destruct label as [|c label]; [reflexivity|].
  cbn [chars list_ascii_of_string matches truthy andb forallb].
  unfold range at 1. cbn [der nullable]. rewrite digit_class_mem.
  destruct (is_digit c); cbn [cat andb].
  - apply matches_digit_star.
  - apply matches_Void.
Qed.

(** [/^[a-z]$/i] accepts the one-letter strings. *)
Lemma LETTER_PATTERN_spec label :
  test_anchored true LETTER_PATTERN label
  = match chars label with
    | [c] => is_letter c
    | _ => false
    end.
Proof.
  unfold test_anchored, LETTER_PATTERN, range.
  destruct (chars label) as [|c l]; [reflexivity|].
  cbn [matches der]. rewrite letter_class_mem.
  destruct (is_letter c).
  - rewrite matches_Eps. now destruct l.
  - rewrite matches_Void. now destruct l.
Qed.

(** What [isValidLabel] accepts: digits, a word of the Roman grammar read
    without regard to case, or one letter. *)
Lemma isValidLabel_spec label :
  isValidLabel label = true <->
  (label <> "" /\ forallb is_digit (chars label) = true)
  \/ lang true ROMAN_PATTERN (chars label)
  \/ (exists c, label = String c "" /\ is_letter c = true).
Proof.
  unfold isValidLabel.
  rewrite ARABIC_PATTERN_spec, LETTER_PATTERN_spec.
  pose proof (matches_lang true (chars label) ROMAN_PATTERN) as HR.
  unfold test_anchored.
  generalize dependent (matches true ROMAN_PATTERN (chars label)).
  generalize (lang true ROMAN_PATTERN (chars label)).
  intros R m HR.
  destruct (truthy label && forallb is_digit (chars label)) eqn:Ea.
  - apply andb_prop in Ea as [Ht Hd]. split; [|reflexivity].
    intros _. left. split; [|exact Hd]. destruct label; [discriminate|discriminate].
  - assert (Hna : ~ (label <> "" /\ forallb is_digit (chars label) = true)).
    { intros [Hne Hd]. rewrite Hd in Ea. destruct label; [congruence|discriminate]. }
    destruct m.
    + split; [|reflexivity]. intros _. right. left. apply HR. reflexivity.
    + assert (Hnr : ~ R).
      { intros H. apply HR in H. discriminate. }
      destruct label as [|c [|c' label]]; cbn [chars list_ascii_of_string].
      * split; [discriminate|].
        intros [H|[H|(c & H & _)]]; [contradiction|contradiction|discriminate].
      * destruct (is_letter c) eqn:El.
        -- split; [|reflexivity]. intros _. right. right.
           exists c. split; [reflexivity|exact El].
        -- split; [discriminate|].
           intros [H|[H|(c0 & H & Hl)]]; [contradiction|contradiction|].
           injection H as <-. congruence.
      * split; [discriminate|].
        intros [H|[H|(c0 & H & _)]]; [contradiction|contradiction|discriminate].
Qed.

(** The Roman grammar of the source accepts the empty string, so a blank
    first label passes [isValidLabel]. *)
Lemma isValidLabel_empty : isValidLabel "" = true.
Proof. reflexivity. Qed.

(* ===================================================================== *)
(** ** Properties of prefix inference *)
(* ===================================================================== *)

(** C2, counterexample.  The labels are joined with the print separator,
    so the hyphen of the file name does not survive. *)
Lemma inferNumberPrefix_first_example_differs :
  inferNumberPrefix "1-2.A foo" "-." "." 3 = Some (Normal (Some "1.2.A."))
  /\ inferNumberPrefix "1-2.A foo" "-." "." 3 <> Some (Normal (Some "1-2.A.")).
Proof. split; [reflexivity|discriminate]. Qed.

(** C2, amended.  [inferNumberPrefix("1-2.A foo", "-.", ".", 3)] returns
    "1.2.A.", [inferNumberPrefix("A note about calculus", " .", ".", 1)]
    returns [undefined], and [inferNumberPrefix("A. note", ".", ".", 1)]
    returns "A.". *)
Theorem inferNumberPrefix_examples :
  inferNumberPrefix "1-2.A foo" "-." "." 3 = Some (Normal (Some "1.2.A."))
  /\ inferNumberPrefix "A note about calculus" " ." "." 1 = Some (Normal None)
  /\ inferNumberPrefix "A. note" "." "." 1 = Some (Normal (Some "A.")).
Proof. repeat split; reflexivity. Qed.

(** The intermediate values of the first example, as the comments of the
    source give them. *)
Lemma inferNumberPrefix_first_example_steps :
  slice0 "1-2.A foo" (first_space_or_length (chars "1-2.A foo")) = "1-2.A"
  /\ RegExp_class "-." =
       Some (Normal {| negated := false; ranges := [(45, 45); (46, 46)] |})
  /\ split {| negated := false; ranges := [(45, 45); (46, 46)] |} "1-2.A"
     = ["1"; "2"; "A"]
  /\ areValidLabels ["1"; "2"; "A"] = true
  /\ join_with "." ["1"; "2"; "A"] = "1.2.A".
Proof. repeat split; reflexivity. Qed.

Lemma areValidLabels_unfold labels :
  areValidLabels labels =
  let blankRemoved := List.filter truthy labels in
  if (2 <=? length blankRemoved)%nat then forallb isValidLabel blankRemoved
  else if (length blankRemoved =? 1)%nat
       then (length labels =? 2)%nat && isValidLabel (nth 0 labels "")
       else false.
Proof.
  unfold areValidLabels. cbv zeta.
  set (b := List.filter truthy labels).
  replace (2 <=? Z.of_nat (length b)) with (2 <=? length b)%nat
    by (destruct (Z.leb_spec 2 (Z.of_nat (length b))), (Nat.leb_spec 2 (length b)); lia || reflexivity).
  replace (Z.of_nat (length b) =? 1) with (length b =? 1)%nat
    by (destruct (Z.eqb_spec (Z.of_nat (length b)) 1), (Nat.eqb_spec (length b) 1); lia || reflexivity).
  replace (Z.of_nat (length labels) =? 2) with (length labels =? 2)%nat
    by (destruct (Z.eqb_spec (Z.of_nat (length labels)) 2), (Nat.eqb_spec (length labels) 2); lia || reflexivity).
  reflexivity.
Qed.

Lemma isValidLabel_blank_or_valid label :
  isValidLabel label = true <-> label = "" \/ valid_label label.
Proof.
  rewrite isValidLabel_spec. unfold valid_label. split.
  - intros H. destruct label as [|c label]; [now left|].
    right. split; [discriminate|].
    destruct H as [[_ H]|[H|H]]; [now left|right; now left|right; now right].
  - intros [->|[Hne [H|[H|H]]]].
    + right. left. apply (matches_lang true [] ROMAN_PATTERN). reflexivity.
    + left. now split.
    + right. now left.
    + right. now right.
Qed.

(** C10, counterexample.  A list of two labels whose first is blank is
    accepted whatever the second is: the test reads [labels[0]], the empty
    string, which the Roman pattern matches, and never looks at the one
    label that is not blank. *)
Lemma areValidLabels_blank_first :
  length (List.filter truthy [""; "ab"]) = 1%nat
  /\ areValidLabels [""; "ab"] = true
  /\ ~ valid_label (nth 0 [""; "ab"] "")
  /\ isValidLabel "ab" = false.
Proof.
  split; [reflexivity|]. split; [reflexivity|]. split; [|reflexivity].
  intros [H _]. now apply H.
Qed.

(** C10, amended.  When at most one label is non-blank, [areValidLabels]
    accepts exactly the lists with one non-blank label, two elements in
    all, and a first element that is blank or a valid label (digits, a
    Roman numeral, or a single letter); with a blank first element the
    second is not examined.  So a list of three or more elements with a
    single non-blank one is rejected, and so are the empty list and the
    lists of blanks. *)
Theorem areValidLabels_single_nonblank (labels : list string)
  (Hone : (length (List.filter truthy labels) <= 1)%nat) :
  areValidLabels labels = true <->
  (length (List.filter truthy labels) = 1%nat
   /\ length labels = 2%nat
   /\ (nth 0 labels "" = "" \/ valid_label (nth 0 labels ""))).
Proof.
  rewrite <- isValidLabel_blank_or_valid.
  rewrite areValidLabels_unfold. cbv zeta.
  destruct (Nat.leb_spec 2 (length (List.filter truthy labels))); [lia|].
  destruct (Nat.eqb_spec (length (List.filter truthy labels)) 1) as [E1|E1].
  - destruct (Nat.eqb_spec (length labels) 2) as [E2|E2]; cbn [andb].
    + tauto.
    + split; [discriminate|tauto].
  - split; [discriminate|tauto].
Qed.

Lemma areValidLabels_single_nonblank_witness :
  areValidLabels [""; "ab"] = true <->
  (length (List.filter truthy [""; "ab"]) = 1%nat
   /\ length [""; "ab"] = 2%nat
   /\ (nth 0 [""; "ab"] "" = "" \/ valid_label (nth 0 [""; "ab"] ""))).
Proof. apply (areValidLabels_single_nonblank [""; "ab"]). simpl. lia. Defined.

Lemma areValidLabels_rejections :
  areValidLabels [] = false
  /\ areValidLabels [""] = false
  /\ areValidLabels [""; ""; ""] = false
  /\ areValidLabels ["A"] = false
  /\ areValidLabels ["A"; ""; ""] = false
  /\ areValidLabels [""; "A"; ""] = false
  /\ areValidLabels ["A"; ""] = true
  /\ areValidLabels [""; "A"] = true.
Proof. repeat split; reflexivity. Qed.

(* ===================================================================== *)
(** ** Properties of the callout readers *)
(* ===================================================================== *)

Lemma parse_text_open_brace fuel : parse_text fuel "{" = None.
Proof. destruct fuel; reflexivity. Qed.

Lemma existsb_rev_eq {A} (f : A -> bool) l : existsb f (rev l) = existsb f l.
Proof.
  induction l as [|x l IH]; [reflexivity|].
  cbn [rev existsb]. rewrite existsb_app, IH. cbn [existsb].
  rewrite orb_false_r. apply orb_comm.
Qed.

Lemma lazy_to_bracket_no_bracket l :
  forall acc g rest,
    lazy_to_bracket l acc = Some (g, rest) ->
    existsb (fun c => code c =? 93) acc = false ->
    existsb (fun c => code c =? 93) g = false.
Proof.
  induction l as [|c l IH]; intros acc g rest H Hacc; [discriminate|].
  cbn [lazy_to_bracket] in H.
  destruct (code c =? 93) eqn:Ec.
  - injection H as <- _. rewrite existsb_rev_eq. exact Hacc.
  - destruct (is_line_terminator c); [discriminate|].
    apply (IH _ _ _ H). cbn [existsb]. now rewrite Ec.
Qed.

Lemma match_here_no_bracket l blob rest :
  match_here l = Some (blob, rest) ->
  existsb (fun c => code c =? 93) (chars blob) = false.
Proof.
  unfold match_here. intros H.
  destruct (expect_lit (chars ">") l) as [l1|]; [|discriminate].
  destruct (expect_lit (chars "[!") (skip_blanks l1)) as [l2|]; [|discriminate].
  destruct (expect_lit (chars "math") (skip_blanks l2)) as [l3|]; [|discriminate].
  destruct (expect_lit (chars "|") (skip_blanks l3)) as [l4|]; [|discriminate].
  destruct (lazy_to_bracket l4 []) as [[g l5]|] eqn:E; [|discriminate].
  injection H as <- _. rewrite chars_join_chars.
  now apply (lazy_to_bracket_no_bracket _ _ _ _ E).
Qed.

Lemma exec_no_bracket l blob rest :
  exec l = Some (blob, rest) ->
  existsb (fun c => code c =? 93) (chars blob) = false.
Proof.
  induction l as [|c l IH]; cbn [exec]; intros H.
  - destruct (match_here []) as [m|] eqn:E; [|discriminate].
    injection H as ->. now apply match_here_no_bracket in E.
  - destruct (match_here (c :: l)) as [m|] eqn:E.
    + injection H as ->. now apply match_here_no_bracket in E.
    + now apply IH.
Qed.

(** The settings group never holds a closing bracket, since the lazy group
    stops at the first one. *)
Lemma matchTheoremCallout_no_bracket line blob rest :
  matchTheoremCallout line = Some (blob, rest) ->
  existsb (fun c => code c =? 93) (chars blob) = false.
Proof.
  unfold matchTheoremCallout. destruct line; [discriminate|]. apply exec_no_bracket.
Qed.

(** C4, counterexample.  A theorem-callout header whose settings are not
    valid JSON: no reader reports an absent item, each of them throws the
    SyntaxError of [JSON.parse]. *)
Lemma readTheoremCalloutSettings_malformed_throws :
  matchTheoremCallout "> [!math|{] Title" = Some ("{", " Title")
  /\ readTheoremCalloutSettingsAndTitle "> [!math|{] Title" = Throw SyntaxError
  /\ readTheoremCalloutSettings "> [!math|{] Title" = Throw SyntaxError
  /\ readTheoremCalloutSettings "> [!math|{] Title" <> Normal None.
Proof. repeat split; try reflexivity; discriminate. Qed.

(** C4, amended.  A header line that does not match the callout pattern is
    reported as an absent item ([undefined]) by the three readers.  On a
    line that matches, the readers hand the settings group to [JSON.parse]
    without a handler: when the group is not valid JSON its SyntaxError
    leaves the reader and reaches the caller; when it is valid the parsed
    settings and the trimmed title are returned. *)
Theorem readers_completion (line : string) :
  match matchTheoremCallout line with
  | None =>
      readTheoremCalloutSettingsAndTitle line = Normal None
      /\ readTheoremCalloutSettings line = Normal None
      /\ readTheoremCalloutTitle line = Normal None
  | Some (blob, rest) =>
      match JSON_parse blob with
      | Throw e =>
          e = SyntaxError
          /\ readTheoremCalloutSettingsAndTitle line = Throw SyntaxError
          /\ readTheoremCalloutSettings line = Throw SyntaxError
          /\ readTheoremCalloutTitle line = Throw SyntaxError
      | Normal v =>
          readTheoremCalloutSettingsAndTitle line
          = Normal (Some {| Callout.settings := v; Callout.title := trim rest |})
          /\ readTheoremCalloutSettings line = Normal (Some v)
          /\ readTheoremCalloutTitle line = Normal (Some (trim rest))
      end
  end.
Proof.
  unfold readTheoremCalloutSettings, readTheoremCalloutTitle,
    readTheoremCalloutSettingsAndTitle.
  destruct (matchTheoremCallout line) as [[blob rest]|]; [|now repeat split].
  destruct (JSON_parse blob) as [v|e] eqn:E; cbn [bind Callout.settings Callout.title].
  - now repeat split.
  - unfold JSON_parse in E.
    destruct (parse_text _ blob); [discriminate|]. injection E as <-.
    now repeat split.
Qed.

(** A well-formed header is read into its settings and its title. *)
Lemma readTheoremCalloutSettingsAndTitle_example :
  readTheoremCalloutSettingsAndTitle Examples.header
  = Normal (Some {| Callout.settings :=
                      JObject [(Examples.units "type", JString (Examples.units "theorem"));
                               (Examples.units "number", JString (Examples.units "auto"));
                               (Examples.units "setAsNoteMathLink", JBool false)];
                    Callout.title := "Lagrange" |}).
Proof. reflexivity. Qed.

(** A caller that reads the header lines one after the other without a
    handler of its own stops at the first line whose settings are not valid
    JSON. *)
Lemma read_in_sequence_stops l1 line l2 :
  readTheoremCalloutSettings line = Throw SyntaxError ->
  Forall (fun x => returns (readTheoremCalloutSettings x) = true) l1 ->
  read_in_sequence (l1 ++ line :: l2) = Throw SyntaxError.
Proof.
  intros Hbad Hok. induction Hok as [|x l1 Hx _ IH].
  - cbn [app read_in_sequence]. now rewrite Hbad.
  - cbn [app read_in_sequence].
    destruct (readTheoremCalloutSettings x) as [item|e]; [|discriminate].
    cbn [bind]. now rewrite IH.
Qed.

(* ===================================================================== *)
(** ** Properties of title formatting *)
(* ===================================================================== *)




Lemma formatTitle_examples :
  formatTitle Examples.plugin Examples.file Examples.unindexed false
  = Some (Normal (Some "Theorem."))
  /\ formatTitle Examples.plugin Examples.file Examples.indexed false
     = Some (Normal (Some "Theorem 1.2.3."))
  /\ formatTitleWithoutSubtitle Examples.plugin Examples.file Examples.unindexed
     = Some (Normal (Some "Theorem")).
Proof. repeat split; vm_compute; reflexivity. Qed.

(* ===================================================================== *)
(** ** Properties of settings resolution *)
(* ===================================================================== *)

Section ResolveFacts.

Implicit Types (h : heap) (o acc : obj) (l r : loc) (k : string).

Lemma new_object_fresh h : h !! (new_object h).2 = None.
Proof. apply not_elem_of_dom, is_fresh. Qed.

Lemma Object_assign_at h r o source :
  h !! r = Some o ->
  Object_assign r source h = <[r := ownProps h source ∪ o]> h.
Proof. intros H. unfold Object_assign. now rewrite H. Qed.

(** Writing into the object at a fresh location [r]: the properties copied
    are those the source had in the heap before [r] was allocated. *)
Lemma ownProps_fresh h r acc source :
  h !! r = None ->
  ownProps (<[r := acc]> h) source ∪ acc = ownProps h source ∪ acc.
Proof.
  intros Hr. destruct source as [[| | | | |l]|]; try reflexivity.
  cbn [ownProps]. destruct (decide (l = r)) as [->|Hne].
  - rewrite lookup_insert_eq, Hr. cbn [default].
    now rewrite (left_id ∅ (∪)), (idemp (∪)).
  - now rewrite lookup_insert_ne by congruence.
Qed.

Lemma Object_assign_fresh h r acc source :
  h !! r = None ->
  Object_assign r source (<[r := acc]> h) = <[r := ownProps h source ∪ acc]> h.
Proof.
  intros Hr.
  rewrite (Object_assign_at _ r acc) by apply lookup_insert_eq.
  now rewrite insert_insert_eq, ownProps_fresh.
Qed.

Lemma get_insert_ne h r acc l k : l <> r -> get (<[r := acc]> h) l k = get h l k.
Proof. intros Hne. unfold get. now rewrite lookup_insert_ne by congruence. Qed.

(** The loop over the ancestors, run on the object at a fresh location. *)
Lemma assign_ancestors_fresh h r psl store :
  h !! r = None -> h !! psl = Some store ->
  forall ancestors acc,
    assign_ancestors r psl ancestors (<[r := acc]> h)
    = <[r := fold_left (fun acc a => ownProps h (store !! path a) ∪ acc) ancestors acc]> h.
Proof.
  intros Hr Hs. induction ancestors as [|a ancestors IH]; intros acc; [reflexivity|].
  unfold assign_ancestors in *. cbn [fold_left].
  rewrite get_insert_ne by congruence.
  rewrite Object_assign_fresh by exact Hr.
  replace (get h psl (path a)) with (store !! path a)
    by (unfold get; now rewrite Hs).
  apply IH.
Qed.

Lemma first_set_app k (l1 l2 : list obj) :
  first_set k (l1 ++ l2) = match first_set k l1 with
                           | Some v => Some v
                           | None => first_set k l2
                           end.
Proof.
  induction l1 as [|o l1 IH]; [reflexivity|].
  cbn [app first_set]. now destruct (o !! k).
Qed.

Lemma lookup_union_first (a b : obj) k :
  (a ∪ b) !! k = match a !! k with Some v => Some v | None => b !! k end.
Proof.
  destruct (a !! k) as [v|] eqn:E.
  - now apply lookup_union_Some_l.
  - now apply lookup_union_r.
Qed.

(** Merging the layers one after the other reads like searching them from
    the last merged to the first. *)
Lemma merged_lookup {A} (layer : A -> obj) k :
  forall (l : list A) acc,
    fold_left (fun acc a => layer a ∪ acc) l acc !! k
    = match first_set k (map layer (rev l)) with
      | Some v => Some v
      | None => acc !! k
      end.
Proof.
  induction l as [|a l IH]; intros acc; [reflexivity|].
  cbn [fold_left rev]. rewrite IH, map_app, first_set_app. cbn [map first_set].
  destruct (first_set k (map layer (rev l))); [reflexivity|].
  rewrite lookup_union_first. now destruct (layer a !! k).
Qed.

Lemma ancestors_loop_chain :
  forall a out, ancestors_loop false a out = (out ++ chain a)%list.
Proof.
  fix IH 1. intros [p [q|]|p [q|] root] out; cbn [ancestors_loop chain];
    try reflexivity; rewrite IH, <- app_assoc; reflexivity.
Qed.

Lemma getAncestors_upward file : getAncestors file = rev (ancestors_upward file).
Proof.
  unfold getAncestors, ancestors_upward. destruct (isRootFolder file).
  - now destruct file.
  - now rewrite ancestors_loop_chain.
Qed.

(** What [resolveSettings] builds: the heap it started from, plus one
    object at a fresh location that holds the merged layers. *)
Lemma resolveSettings_result D settings psl file h store :
  h !! psl = Some store ->
  resolveSettings D settings psl file h
  = (<[(new_object h).2 :=
         ownProps h (option_map VRef settings)
         ∪ fold_left (fun acc a => ownProps h (store !! path a) ∪ acc)
                     (getAncestors file)
                     (ownProps h (Some (VRef D)) ∪ ∅)]> h,
     (new_object h).2).
Proof.
  intros Hs. pose proof (new_object_fresh h) as Hr.
  unfold resolveSettings. cbn [new_object snd] in *.
  set (r := fresh (dom h)) in *.
  rewrite Object_assign_fresh by exact Hr.
  rewrite (assign_ancestors_fresh h r psl store Hr Hs).
  now rewrite Object_assign_fresh by exact Hr.
Qed.

Lemma resolveSettings_lookup D settings psl file h store k :
  h !! psl = Some store ->
  let '(h', r) := resolveSettings D settings psl file h in
  get h' r k
  = priority_lookup k
      (ownProps h (option_map VRef settings))
      (map (fun a => ownProps h (store !! path a)) (ancestors_upward file))
      (ownProps h (Some (VRef D))).
Proof.
  intros Hs. rewrite (resolveSettings_result _ _ _ _ _ _ Hs).
  unfold get, priority_lookup. rewrite lookup_insert_eq.
  rewrite lookup_union_first. cbn [first_set].
  destruct (ownProps h (option_map VRef settings) !! k); [reflexivity|].
  rewrite (merged_lookup (fun a => ownProps h (store !! path a))).
  rewrite getAncestors_upward, rev_involutive, first_set_app.
  destruct (first_set k _); [reflexivity|].
  cbn [first_set]. rewrite lookup_union_first, lookup_empty.
  now destruct (ownProps h (Some (VRef D)) !! k).
Qed.

(** Any property of the merged object that the defaults have and that
    survives [Object.assign] holds of the result; the rest of the heap is
    preserved whatever the store and the records hold. *)
Lemma Object_assign_invariant (P : obj -> Prop) h r o source :
  (forall a o, P o -> P (a ∪ o)) -> P o ->
  exists o', Object_assign r source (<[r := o]> h) = <[r := o']> h /\ P o'.
Proof.
  intros Hunion Ho.
  rewrite (Object_assign_at _ r o) by apply lookup_insert_eq.
  rewrite insert_insert_eq. eexists. split; [reflexivity|]. now apply Hunion.
Qed.

Lemma assign_ancestors_invariant (P : obj -> Prop) h r psl :
  (forall a o, P o -> P (a ∪ o)) ->
  forall ancestors o, P o ->
    exists o', assign_ancestors r psl ancestors (<[r := o]> h) = <[r := o']> h /\ P o'.
Proof.
  intros Hunion. induction ancestors as [|a ancestors IH]; intros o Ho; [eauto|].
  unfold assign_ancestors in *. cbn [fold_left].
  destruct (Object_assign_invariant P h r o
              (get (<[r := o]> h) psl (path a)) Hunion Ho) as (o1 & -> & Ho1).
  now apply IH.
Qed.

Lemma resolveSettings_invariant (P : obj -> Prop) D settings psl file h :
  (forall a o, P o -> P (a ∪ o)) ->
  P (ownProps h (Some (VRef D)) ∪ ∅) ->
  let '(h', r) := resolveSettings D settings psl file h in
  h !! r = None /\ exists o, h' = <[r := o]> h /\ P o.
Proof.
  intros Hunion Hd. pose proof (new_object_fresh h) as Hr.
  unfold resolveSettings. cbn [new_object snd] in *.
  set (r := fresh (dom h)) in *.
  rewrite Object_assign_fresh by exact Hr.
  destruct (assign_ancestors_invariant P h r psl Hunion (getAncestors file) _ Hd)
    as (o1 & -> & Ho1).
  destruct (Object_assign_invariant P h r o1 (option_map VRef settings) Hunion Ho1)
    as (o2 & -> & Ho2).
  split; [exact Hr|]. now exists o2.
Qed.

End ResolveFacts.

(** C6.  In the object [resolveSettings] returns, every field reads as
    the first value found when searching the callout's own settings, then
    the per-path records of the file itself, of its parent, of its
    grandparent and so on up to the vault root, then [DEFAULT_SETTINGS]:
    a deeper ancestor wins over a shallower one, any ancestor over the
    defaults, and the local settings over everything inherited. *)
Theorem resolveSettings_override_order
  (D : loc) (settings : option loc) (psl : loc) (file : TAbstractFile)
  (h : heap) (store : obj) (k : string)
  (Hstore : h !! psl = Some store) :
  let '(h', r) := resolveSettings D settings psl file h in
  get h' r k
  = priority_lookup k
      (ownProps h (option_map VRef settings))
      (map (fun a => ownProps h (store !! path a)) (ancestors_upward file))
      (ownProps h (Some (VRef D))).
Proof. exact (resolveSettings_lookup D settings psl file h store k Hstore). Qed.

Lemma resolveSettings_override_order_witness :
  let '(h', r) :=
    resolveSettings 1%positive (Some 7%positive) 3%positive
                    Examples.groups Examples.heap0 in
  get h' r "numberStyle"
  = priority_lookup "numberStyle"
      (ownProps Examples.heap0 (option_map VRef (Some 7%positive)))
      (map (fun a => ownProps Examples.heap0 (Examples.store !! path a))
           (ancestors_upward Examples.groups))
      (ownProps Examples.heap0 (Some (VRef 1%positive))).
Proof.
  apply (resolveSettings_override_order 1%positive (Some 7%positive) 3%positive
           Examples.groups Examples.heap0 Examples.store "numberStyle").
  reflexivity.
Defined.

(** The resolution of the note of the example vault, field by field: the
    callout's own [numberInit], the note's [numberStyle], the root's
    [titleSuffix], the default [lang]; the copy is shallow, so the result
    and the defaults share their [rename] object. *)
Lemma resolveSettings_example :
  let '(h', r) :=
    resolveSettings 1%positive (Some 7%positive) 3%positive
                    Examples.groups Examples.heap0 in
  get h' r "numberInit" = Some (VNum 9)
  /\ get h' r "numberStyle" = Some (VStr "Alph")
  /\ get h' r "titleSuffix" = Some (VStr ":")
  /\ get h' r "lang" = Some (VStr "en")
  /\ get h' r "type" = Some (VStr "theorem")
  /\ get h' r "rename" = get h' 1%positive "rename"
  /\ r = 8%positive.
Proof. vm_compute. repeat split; reflexivity. Qed.

(** Consequences of the search order. *)
Lemma resolveSettings_local_wins D l psl file h store local k v :
  h !! psl = Some store -> h !! l = Some local -> local !! k = Some v ->
  let '(h', r) := resolveSettings D (Some l) psl file h in
  get h' r k = Some v.
Proof.
  intros Hs Hl Hk.
  pose proof (resolveSettings_lookup D (Some l) psl file h store k Hs) as H.
  destruct (resolveSettings D (Some l) psl file h) as [h' r].
  rewrite H. unfold priority_lookup. cbn [first_set option_map ownProps].
  rewrite Hl. cbn [default id]. now rewrite Hk.
Qed.

Lemma resolveSettings_deeper_wins D psl file h store k v nearer a farther :
  h !! psl = Some store ->
  ancestors_upward file = (nearer ++ a :: farther)%list ->
  Forall (fun b => ownProps h (store !! path b) !! k = None) nearer ->
  ownProps h (store !! path a) !! k = Some v ->
  let '(h', r) := resolveSettings D None psl file h in
  get h' r k = Some v.
Proof.
  intros Hs Hup Hnear Ha.
  pose proof (resolveSettings_lookup D None psl file h store k Hs) as H.
  destruct (resolveSettings D None psl file h) as [h' r].
  rewrite H, Hup. unfold priority_lookup. cbn [first_set option_map ownProps].
  rewrite lookup_empty, map_app, <- app_assoc, first_set_app.
  replace (first_set k (map (fun a0 => ownProps h (store !! path a0)) nearer))
    with (@None val).
  - cbn [map app first_set]. now rewrite Ha.
  - clear Hup. induction Hnear as [|b nearer Hb _ IH]; [reflexivity|].
    cbn [map first_set]. now rewrite Hb.
Qed.

Lemma resolveSettings_defaults_last D psl file h store defaults k :
  h !! psl = Some store -> h !! D = Some defaults ->
  Forall (fun b => ownProps h (store !! path b) !! k = None) (ancestors_upward file) ->
  let '(h', r) := resolveSettings D None psl file h in
  get h' r k = defaults !! k.
Proof.
  intros Hs Hd Hnone.
  pose proof (resolveSettings_lookup D None psl file h store k Hs) as H.
  destruct (resolveSettings D None psl file h) as [h' r].
  rewrite H. unfold priority_lookup. cbn [first_set option_map ownProps].
  rewrite lookup_empty, first_set_app, Hd. cbn [default id].
  replace (first_set k (map (fun a0 => ownProps h (store !! path a0))
                            (ancestors_upward file)))
    with (@None val).
  - cbn [first_set]. now destruct (defaults !! k).
  - revert Hnone. generalize (ancestors_upward file).
    induction 1 as [|b l Hb _ IH]; [reflexivity|].
    cbn [map first_set]. now rewrite Hb.
Qed.

Lemma first_set_found k (layers : list obj) v :
  first_set k layers = Some v -> exists o, In o layers /\ o !! k = Some v.
Proof.
  induction layers as [|o layers IH]; [discriminate|].
  cbn [first_set]. destruct (o !! k) as [w|] eqn:E.
  - intros [= ->]. exists o. split; [now left|exact E].
  - intros H. destruct (IH H) as (o' & Hin & Ho'). exists o'. split; [now right|exact Ho'].
Qed.

Lemma first_set_last k (layers : list obj) (o : obj) :
  is_Some (o !! k) -> is_Some (first_set k (layers ++ [o])).
Proof.
  intros Ho. induction layers as [|a layers IH]; cbn [app first_set].
  - destruct Ho as [v ->]. eauto.
  - destruct (a !! k); eauto.
Qed.

Lemma DEFAULT_SETTINGS_defined lang rename :
  Forall (fun k => exists v, DEFAULT_SETTINGS lang rename !! k = Some v /\ v <> VUndef)
         MathContextSettings_fields.
Proof.
  unfold MathContextSettings_fields.
  repeat (constructor; [vm_compute; eexists; split; [reflexivity|discriminate]|]).
  constructor.
Qed.

(** C7, counterexample.  A record of the store that holds [numberInit]
    set to [undefined] is copied by [Object.assign] like any other: the
    resolved [numberInit] is a property of the result and reads
    [undefined], although the defaults give it the value 1. *)
Lemma resolveSettings_undefined_field :
  let h := <[6%positive := {[ "numberInit" := VUndef ]}]> Examples.heap0 in
  In "numberInit" MathContextSettings_fields
  /\ h !! 1%positive = Some (DEFAULT_SETTINGS "en" 2%positive)
  /\ get (resolveSettings 1%positive None 3%positive Examples.groups h).1
         (resolveSettings 1%positive None 3%positive Examples.groups h).2
         "numberInit"
     = Some VUndef.
Proof.
  cbv zeta. split; [do 4 right; left; reflexivity|].
  split; [reflexivity|]. vm_compute. reflexivity.
Qed.

(** C7, amended.  Whatever the file, the per-path store and the local
    record are, every field of [MathContextSettings] is a property of the
    object [resolveSettings] returns, and the property holds [undefined]
    only if the local record, or the record of the file or of one of its
    ancestors, holds that field set to [undefined]. *)
Theorem resolveSettings_fields_defined
  (DEFAULT_LANG : string) (rename D : loc) (settings : option loc) (psl : loc)
  (file : TAbstractFile) (h : heap) (store : obj) (k : string)
  (Hdefaults : h !! D = Some (DEFAULT_SETTINGS DEFAULT_LANG rename))
  (Hstore : h !! psl = Some store)
  (Hfield : In k MathContextSettings_fields) :
  let '(h', r) := resolveSettings D settings psl file h in
  exists v,
    get h' r k = Some v
    /\ (v = VUndef ->
        ownProps h (option_map VRef settings) !! k = Some VUndef
        \/ exists a, In a (getAncestors file)
                     /\ ownProps h (store !! path a) !! k = Some VUndef).
Proof.
  pose proof (resolveSettings_lookup D settings psl file h store k Hstore) as H.
  destruct (resolveSettings D settings psl file h) as [h' r].
  pose proof (DEFAULT_SETTINGS_defined DEFAULT_LANG rename) as Hdef.
  rewrite List.Forall_forall in Hdef. destruct (Hdef k Hfield) as (d & Hd & Hdv).
  assert (HD : ownProps h (Some (VRef D)) = DEFAULT_SETTINGS DEFAULT_LANG rename).
  { cbn [ownProps]. now rewrite Hdefaults. }
  unfold priority_lookup in H. rewrite HD in H.
  destruct (first_set_last k
              (ownProps h (option_map VRef settings)
               :: map (fun a => ownProps h (store !! path a)) (ancestors_upward file))
              (DEFAULT_SETTINGS DEFAULT_LANG rename)) as [v Hv]; [rewrite Hd; eauto|].
  cbn [app] in Hv. exists v. split; [congruence|].
  intros ->. apply first_set_found in Hv as (o & Hin & Ho).
  destruct Hin as [<-|Hin]; [now left|].
  apply in_app_or in Hin as [Hin|[<-|[]]].
  - right. apply in_map_iff in Hin as (a & <- & Ha). exists a. split; [|exact Ho].
    rewrite getAncestors_upward. now apply in_rev in Ha.
  - congruence.
Qed.

Lemma resolveSettings_fields_defined_witness :
  let '(h', r) :=
    resolveSettings 1%positive (Some 7%positive) 3%positive
                    Examples.groups Examples.heap0 in
  exists v,
    get h' r "numberInit" = Some v
    /\ (v = VUndef ->
        ownProps Examples.heap0 (option_map VRef (Some 7%positive)) !! "numberInit"
        = Some VUndef
        \/ exists a, In a (getAncestors Examples.groups)
                     /\ ownProps Examples.heap0 (Examples.store !! path a) !! "numberInit"
                        = Some VUndef).
Proof.
  apply (resolveSettings_fields_defined "en" 2%positive 1%positive (Some 7%positive)
           3%positive Examples.groups Examples.heap0 Examples.store "numberInit").
  - reflexivity.
  - reflexivity.
  - vm_compute. tauto.
Defined.

(** C8.  [resolveSettings] returns a location that named no object before
    the call, and the heap after the call is the heap before it plus the
    object at that location.  So every object [l] that was live before the
    call (the defaults, the store, each of its records, the local record)
    is another object than the result and holds after the call what it
    held before. *)
Theorem resolveSettings_fresh_and_frame
  (D : loc) (settings : option loc) (psl : loc) (file : TAbstractFile) (h : heap)
  (l : loc) (o : obj) (Hlive : h !! l = Some o) :
  let '(h', r) := resolveSettings D settings psl file h in
  h !! r = None
  /\ (exists merged, h' = <[r := merged]> h)
  /\ l <> r
  /\ h' !! l = Some o.
Proof.
  pose proof (resolveSettings_invariant (fun _ => True) D settings psl file h
                (fun _ _ _ => I) I) as H.
  destruct (resolveSettings D settings psl file h) as [h' r].
  destruct H as (Hr & o' & -> & _).
  assert (l <> r) by congruence.
  split; [exact Hr|]. split; [now exists o'|]. split; [assumption|].
  now rewrite lookup_insert_ne by congruence.
Qed.

Lemma resolveSettings_fresh_and_frame_witness :
  let '(h', r) :=
    resolveSettings 1%positive (Some 7%positive) 3%positive
                    Examples.groups Examples.heap0 in
  Examples.heap0 !! r = None
  /\ (exists merged, h' = <[r := merged]> Examples.heap0)
  /\ 1%positive <> r
  /\ h' !! 1%positive = Some (DEFAULT_SETTINGS "en" 2%positive).
Proof.
  apply (resolveSettings_fresh_and_frame 1%positive (Some 7%positive) 3%positive
           Examples.groups Examples.heap0 1%positive (DEFAULT_SETTINGS "en" 2%positive)).
  reflexivity.
Defined.

(** The frame alone, without naming a live object. *)
Lemma resolveSettings_frame D settings psl file h :
  let '(h', r) := resolveSettings D settings psl file h in
  h !! r = None /\ exists merged, h' = <[r := merged]> h.
Proof.
  pose proof (resolveSettings_invariant (fun _ => True) D settings psl file h
                (fun _ _ _ => I) I) as H.
  destruct (resolveSettings D settings psl file h) as [h' r].
  destruct H as (Hr & o' & -> & _).
  split; [exact Hr|now exists o'].
Qed.

(** Two calls in a row return two different objects. *)
Lemma resolveSettings_twice D settings psl file h :
  let '(h1, r1) := resolveSettings D settings psl file h in
  let '(h2, r2) := resolveSettings D settings psl file h1 in
  r1 <> r2.
Proof.
  pose proof (resolveSettings_invariant (fun _ => True) D settings psl file h
                (fun _ _ _ => I) I) as H1.
  destruct (resolveSettings D settings psl file h) as [h1 r1].
  destruct H1 as (Hr1 & o1 & -> & _).
  pose proof (resolveSettings_invariant (fun _ => True) D settings psl file
                (<[r1 := o1]> h) (fun _ _ _ => I) I) as H2.
  destruct (resolveSettings D settings psl file (<[r1 := o1]> h)) as [h2 r2].
  destruct H2 as (Hr2 & _).
  intros ->. now rewrite lookup_insert_eq in Hr2.
Qed.

(* ===================================================================== *)
(** ** Properties of the text utilities *)
(* ===================================================================== *)

Import Util Vault Notions.

Lemma chars_app a b : chars (a ++ b) = (chars a ++ chars b)%list.
Proof.
  unfold chars. induction a as [|c a IH]; [reflexivity|].
  simpl. now rewrite IH.
Qed.

Lemma join_chars_chars s : join_chars (chars s) = s.
Proof. apply string_of_list_ascii_of_string. Qed.

Lemma join_chars_app l1 l2 : join_chars (l1 ++ l2) = join_chars l1 ++ join_chars l2.
Proof.
  unfold join_chars. induction l1 as [|c l1 IH]; [reflexivity|].
  simpl. now rewrite IH.
Qed.

Lemma length_chars s : length (chars s) = String.length s.
Proof.
  unfold chars. induction s as [|c s IH]; [reflexivity|].
  simpl. now rewrite IH.
Qed.

Lemma chars_inj s t : chars s = chars t -> s = t.
Proof. intros H. rewrite <- (join_chars_chars s), <- (join_chars_chars t). now rewrite H. Qed.

(** *** Splitting into lines and joining back *)

Lemma lacks_app c l1 l2 : lacks c (l1 ++ l2) <-> lacks c l1 /\ lacks c l2.
Proof. unfold lacks. rewrite existsb_app, orb_false_iff. reflexivity. Qed.

Lemma lacks_cons c x l : lacks c (x :: l) <-> Ascii.eqb x c = false /\ lacks c l.
Proof. unfold lacks. cbn [existsb]. now rewrite orb_false_iff. Qed.

Lemma lacks_rev c l : lacks c (rev l) <-> lacks c l.
Proof. unfold lacks. now rewrite existsb_rev_eq. Qed.

(** The pieces [split] makes hold no separator. *)
Lemma split_char_go_lacks sep l :
  forall cur, lacks sep cur ->
    Forall (fun p => lacks sep (chars p)) (split_char_go sep l cur).
Proof.
  induction l as [|c l IH]; intros cur Hcur; cbn [split_char_go].
  - constructor; [|constructor]. rewrite chars_join_chars. now apply lacks_rev.
  - destruct (Ascii.eqb c sep) eqn:E.
    + constructor; [rewrite chars_join_chars; now apply lacks_rev|].
      now apply IH.
    + apply IH. now apply lacks_cons.
Qed.

(** Splitting the text that joins some pieces gives the pieces back. *)
Lemma split_char_go_join sep x ls :
  lacks sep (chars x) -> Forall (fun p => lacks sep (chars p)) ls ->
  forall cur,
    split_char_go sep (chars (join_with (String sep "") (x :: ls))) cur
    = join_chars (rev cur ++ chars x) :: ls.
Proof.
  intros Hx Hls. revert x Hx. induction Hls as [|y ls Hy _ IH]; intros x Hx cur.
  - cbn [join_with]. revert cur. induction (chars x) as [|c l IHl]; intros cur.
    + cbn [split_char_go]. now rewrite app_nil_r.
    + apply lacks_cons in Hx as [Hc Hl]. cbn [split_char_go]. rewrite Hc, IHl by exact Hl.
      cbn [rev]. now rewrite <- app_assoc.
  - change (join_with (String sep "") (x :: y :: ls))
      with (x ++ String sep "" ++ join_with (String sep "") (y :: ls)).
    rewrite chars_app. revert cur.
    induction (chars x) as [|c l IHl]; intros cur.
    + cbn [app]. change (chars (String sep "" ++ ?t)) with (sep :: chars t).
      cbn [split_char_go]. rewrite Ascii.eqb_refl, IH by exact Hy.
      cbn [rev app]. now rewrite app_nil_r, join_chars_chars.
    + apply lacks_cons in Hx as [Hc Hl]. cbn [app split_char_go].
      rewrite Hc, IHl by exact Hl. cbn [rev]. now rewrite <- app_assoc.
Qed.

Lemma split_char_join sep lines :
  lines <> [] -> Forall (fun p => lacks sep (chars p)) lines ->
  split_char sep (join_with (String sep "") lines) = lines.
Proof.
  intros Hne Hl. destruct lines as [|x ls]; [congruence|].
  inversion Hl; subst. unfold split_char.
  rewrite split_char_go_join by assumption.
  cbn [rev app]. now rewrite join_chars_chars.
Qed.

Lemma split_char_go_nonempty sep l : forall cur, split_char_go sep l cur <> [].
Proof.
  induction l as [|c l IH]; intros cur; cbn [split_char_go]; [discriminate|].
  destruct (Ascii.eqb c sep); [discriminate|apply IH].
Qed.

(** Joining the pieces of a text gives the text back. *)
Lemma join_split_char_go sep l :
  forall cur,
    chars (join_with (String sep "") (split_char_go sep l cur)) = (rev cur ++ l)%list.
Proof.
  induction l as [|c l IH]; intros cur; cbn [split_char_go].
  - cbn [join_with]. now rewrite chars_join_chars, app_nil_r.
  - destruct (Ascii.eqb_spec c sep) as [->|Hne].
    + specialize (IH []).
      destruct (split_char_go sep l []) as [|y ys] eqn:E.
      { exfalso. exact (split_char_go_nonempty _ _ _ E). }
      change (join_with (String sep "") (join_chars (rev cur) :: y :: ys))
        with (join_chars (rev cur) ++ String sep "" ++ join_with (String sep "") (y :: ys)).
      rewrite chars_app, chars_join_chars.
      change (chars (String sep "" ++ ?t)) with (sep :: chars t).
      now rewrite IH.
    + rewrite IH. cbn [rev]. now rewrite <- app_assoc.
Qed.

Lemma join_split_char sep s : join_with (String sep "") (split_char sep s) = s.
Proof. apply chars_inj. unfold split_char. now rewrite join_split_char_go. Qed.

Lemma split_char_nonempty sep s : split_char sep s <> [].
Proof. apply split_char_go_nonempty. Qed.

(** X1.  [increaseQuoteLevel] keeps the number of lines and puts the
    quote marker in front of each of them: splitting its result at the
    line feeds gives the lines of the content, each behind "> ". *)
Theorem increaseQuoteLevel_lines (content : string) :
  split_char LF (increaseQuoteLevel content)
  = map (fun line => "> " ++ line) (split_char LF content).
Proof.
  unfold increaseQuoteLevel. apply split_char_join.
  - pose proof (split_char_nonempty LF content).
    destruct (split_char LF content); [congruence|discriminate].
  - apply Forall_map.
    eapply Forall_impl; [apply (split_char_go_lacks LF (chars content) []); reflexivity|].
    intros p Hp. cbn beta. rewrite chars_app. apply lacks_app. split; [reflexivity|exact Hp].
Qed.

Lemma splitIntoLines_go_no_CR l :
  lacks CR l -> forall cur, splitIntoLines_go l cur = split_char_go LF l cur.
Proof.
  induction l as [|c l IH]; intros Hl cur; [reflexivity|].
  apply lacks_cons in Hl as [Hc Hl]. cbn [splitIntoLines_go split_char_go].
  rewrite Hc. destruct (Ascii.eqb c LF); now rewrite IH.
Qed.

Lemma lacks_join_with c sep lines :
  lacks c (chars sep) -> Forall (fun p => lacks c (chars p)) lines ->
  lacks c (chars (join_with sep lines)).
Proof.
  intros Hsep Hl. induction Hl as [|x ls Hx Hls IH]; [reflexivity|].
  destruct ls as [|y ls]; [exact Hx|].
  change (join_with sep (x :: y :: ls)) with (x ++ sep ++ join_with sep (y :: ls)).
  rewrite !chars_app. apply lacks_app. split; [exact Hx|].
  apply lacks_app. split; [exact Hsep|exact IH].
Qed.

(** Pieces joined by a carriage return and a line feed are split apart at
    each pair. *)
Lemma splitIntoLines_go_join_CRLF x ls :
  lacks LF (chars x) -> lacks CR (chars x) ->
  Forall (fun p => lacks LF (chars p) /\ lacks CR (chars p)) ls ->
  forall cur,
    splitIntoLines_go (chars (join_with (String CR (String LF "")) (x :: ls))) cur
    = join_chars (rev cur ++ chars x) :: ls.
Proof.
  intros Hx1 Hx2 Hls. revert x Hx1 Hx2.
  induction Hls as [|y ls [Hy1 Hy2] _ IH]; intros x Hx1 Hx2 cur.
  - cbn [join_with]. revert cur. induction (chars x) as [|c l IHl]; intros cur.
    + cbn [splitIntoLines_go]. now rewrite app_nil_r.
    + apply lacks_cons in Hx1 as [Hc1 Hl1]. apply lacks_cons in Hx2 as [Hc2 Hl2].
      cbn [splitIntoLines_go]. rewrite Hc1, Hc2, IHl by assumption.
      cbn [rev]. now rewrite <- app_assoc.
  - change (join_with (String CR (String LF "")) (x :: y :: ls))
      with (x ++ String CR (String LF "")
              ++ join_with (String CR (String LF "")) (y :: ls)).
    rewrite chars_app. revert cur.
    induction (chars x) as [|c l IHl]; intros cur.
    + cbn [app].
      change (chars (String CR (String LF "") ++ ?t)) with (CR :: LF :: chars t).
      cbn [splitIntoLines_go].
      change (Ascii.eqb CR LF) with false. change (Ascii.eqb CR CR) with true.
      change (Ascii.eqb LF LF) with true. cbv iota.
      rewrite IH by assumption.
      cbn [rev app]. now rewrite app_nil_r, join_chars_chars.
    + apply lacks_cons in Hx1 as [Hc1 Hl1]. apply lacks_cons in Hx2 as [Hc2 Hl2].
      cbn [app splitIntoLines_go]. rewrite Hc1, Hc2, IHl by assumption.
      cbn [rev]. now rewrite <- app_assoc.
Qed.

(** X2.  [splitIntoLines] undoes the joining of lines, with either line
    ending: for lines that hold no line feed and no carriage return, the
    text made by joining them with "\n", or with "\r\n", is split back into
    exactly these lines. *)
Theorem splitIntoLines_join (lines : list string)
  (Hne : lines <> [])
  (Hlines : Forall (fun p => lacks LF (chars p) /\ lacks CR (chars p)) lines) :
  splitIntoLines (join_with (String LF "") lines) = lines
  /\ splitIntoLines (join_with (String CR (String LF "")) lines) = lines.
Proof.
  assert (H1 : Forall (fun p => lacks LF (chars p)) lines)
    by (eapply Forall_impl; [exact Hlines|]; now intros p [? ?]).
  assert (H2 : Forall (fun p => lacks CR (chars p)) lines)
    by (eapply Forall_impl; [exact Hlines|]; now intros p [? ?]).
  split.
  - unfold splitIntoLines. rewrite splitIntoLines_go_no_CR.
    + now apply split_char_join.
    + apply lacks_join_with; [reflexivity|exact H2].
  - destruct lines as [|x ls]; [congruence|].
    inversion Hlines as [|? ? [Hx1 Hx2] Hls]; subst.
    unfold splitIntoLines. rewrite splitIntoLines_go_join_CRLF by assumption.
    cbn [rev app]. now rewrite join_chars_chars.
Qed.

Lemma splitIntoLines_join_witness :
  splitIntoLines (join_with (String LF "") ["> [!math]"; ""; "x = 1"])
  = ["> [!math]"; ""; "x = 1"]
  /\ splitIntoLines (join_with (String CR (String LF "")) ["> [!math]"; ""; "x = 1"])
     = ["> [!math]"; ""; "x = 1"].
Proof.
  apply (splitIntoLines_join ["> [!math]"; ""; "x = 1"]).
  - discriminate.
  - repeat constructor.
Defined.

(** X3.  On a text without carriage return, [splitIntoLines] loses
    nothing: joining its pieces with line feeds gives the text back, and
    no piece holds a line feed. *)
Theorem splitIntoLines_join_back (text : string) (Hcr : lacks CR (chars text)) :
  join_with (String LF "") (splitIntoLines text) = text
  /\ Forall (fun p => lacks LF (chars p)) (splitIntoLines text).
Proof.
  unfold splitIntoLines. rewrite splitIntoLines_go_no_CR by exact Hcr. split.
  - apply join_split_char.
  - now apply split_char_go_lacks.
Qed.

Lemma splitIntoLines_join_back_witness :
  join_with (String LF "") (splitIntoLines ("x = 1" ++ String LF "y = 2"))
  = "x = 1" ++ String LF "y = 2"
  /\ Forall (fun p => lacks LF (chars p))
            (splitIntoLines ("x = 1" ++ String LF "y = 2")).
Proof. apply (splitIntoLines_join_back ("x = 1" ++ String LF "y = 2")). reflexivity. Defined.

(* ===================================================================== *)
(** ** Properties of the array utilities *)
(* ===================================================================== *)

Section ArrayFacts.

Context {A : Type} `{EqDecision A}.

Implicit Types (item x : A) (array l : list A).

Lemma indexOf_from_absent item l :
  ~ In item l -> forall i, indexOf_from item l i = -1.
Proof.
  induction l as [|x l IH]; intros Hn i; [reflexivity|].
  cbn [indexOf_from]. destruct (decide (x = item)) as [->|Hne].
  - exfalso. apply Hn. now left.
  - apply IH. intros Hin. apply Hn. now right.
Qed.

Lemma indexOf_from_first item l1 l2 :
  ~ In item l1 ->
  forall i, indexOf_from item (l1 ++ item :: l2) i = i + Z.of_nat (length l1).
Proof.
  induction l1 as [|x l1 IH]; intros Hn i; cbn [app indexOf_from length].
  - destruct (decide (item = item)); [lia|congruence].
  - destruct (decide (x = item)) as [->|Hne].
    + exfalso. apply Hn. now left.
    + rewrite IH; [lia|]. intros Hin. apply Hn. now right.
Qed.

(** Where [insertAt] puts the item: after the first [k] elements, with [k]
    the index clamped to the array. *)
Lemma insertAt_at array item index :
  let len := Z.of_nat (length array) in
  let k := Z.to_nat (if index <? 0 then Z.max (len + index) 0 else Z.min index len) in
  insertAt array item index = (firstn k array ++ item :: skipn k array)%list.
Proof.
  cbv zeta. unfold insertAt, splice. cbn [snd].
  set (len := Z.of_nat (length array)).
  set (s := if index <? 0 then Z.max (len + index) 0 else Z.min index len).
  assert (0 <= s <= len) by (subst s len; destruct (Z.ltb_spec index 0); lia).
  replace (Z.to_nat (Z.min (Z.max 0 0) (len - s))) with 0%nat by lia.
  now rewrite Nat.add_0_r.
Qed.

Lemma removeFrom_at_first item l1 l2 :
  ~ In item l1 -> removeFrom item (l1 ++ item :: l2) = ([item], (l1 ++ l2)%list).
Proof.
  intros Hn. unfold removeFrom, splice, indexOf.
  rewrite indexOf_from_first by exact Hn.
  rewrite length_app. cbn [length].
  set (n := length l1).
  destruct (Z.ltb_spec (0 + Z.of_nat n) 0); [lia|].
  replace (Z.to_nat (Z.min (0 + Z.of_nat n) (Z.of_nat (n + S (length l2))))) with n by lia.
  replace (Z.to_nat (Z.min (Z.max 1 0)
             (Z.of_nat (n + S (length l2))
              - Z.min (0 + Z.of_nat n) (Z.of_nat (n + S (length l2))))))
    with 1%nat by lia.
  subst n. rewrite <- drop_drop, drop_app_length, take_app_length.
  reflexivity.
Qed.

Lemma removeFrom_at_last item l x :
  ~ In item (l ++ [x]) -> removeFrom item (l ++ [x]) = ([x], l).
Proof.
  intros Hn. unfold removeFrom, splice, indexOf.
  rewrite indexOf_from_absent by exact Hn.
  rewrite length_app. cbn [length].
  set (n := length l).
  destruct (Z.ltb_spec (-1) 0); [|lia].
  replace (Z.to_nat (Z.max (Z.of_nat (n + 1) + -1) 0)) with n by lia.
  replace (Z.to_nat (Z.min (Z.max 1 0)
             (Z.of_nat (n + 1) - Z.max (Z.of_nat (n + 1) + -1) 0)))
    with 1%nat by lia.
  subst n. rewrite <- drop_drop, drop_app_length, take_app_length.
  cbn [drop take app]. now rewrite app_nil_r.
Qed.

(** X4.  [removeFrom] takes out the first occurrence of the item, and only
    that one, and returns it: the elements before and after keep their
    order. *)
Theorem removeFrom_present (item : A) (l1 l2 : list A) (Hfirst : ~ In item l1) :
  removeFrom item (l1 ++ item :: l2) = ([item], (l1 ++ l2)%list).
Proof. now apply removeFrom_at_first. Qed.

(** X5.  When the item is not in the array, [indexOf] gives -1 and
    [splice(-1, 1)] removes the last element: [removeFrom] takes out an
    element that is not the item.  Only the empty array is left alone. *)
Theorem removeFrom_absent (item x : A) (l : list A) (Habsent : ~ In item (l ++ [x])) :
  removeFrom item (l ++ [x]) = ([x], l)
  /\ removeFrom item [] = ([], []).
Proof. split; [now apply removeFrom_at_last|reflexivity]. Qed.

(** X6.  For an index within the array, [insertAt] puts the item at that
    index: the elements before it stay, the elements from it on move up by
    one, and the array is one longer. *)
Theorem insertAt_in_bounds (array : list A) (item : A) (index : Z)
  (Hindex : 0 <= index <= Z.of_nat (length array)) :
  insertAt array item index !! Z.to_nat index = Some item
  /\ take (Z.to_nat index) (insertAt array item index) = take (Z.to_nat index) array
  /\ drop (S (Z.to_nat index)) (insertAt array item index) = drop (Z.to_nat index) array
  /\ length (insertAt array item index) = S (length array).
Proof.
  pose proof (insertAt_at array item index) as E. cbv zeta in E.
  destruct (Z.ltb_spec index 0); [lia|].
  rewrite Z.min_l in E by lia. rewrite E.
  set (k := Z.to_nat index).
  assert (Hk : (k <= length array)%nat) by lia.
  assert (Hlen : length (take k array) = k) by (rewrite length_take; lia).
  split; [|split; [|split]].
  - apply list_lookup_middle. now rewrite Hlen.
  - rewrite <- Hlen at 1. now rewrite take_app_length.
  - change (S k) with (1 + k)%nat. rewrite Nat.add_comm, <- drop_drop.
    rewrite <- Hlen at 1. now rewrite drop_app_length.
  - rewrite length_app. cbn [length]. rewrite Hlen, length_drop. lia.
Qed.

(** X7.  Inserting an item that the array does not hold, at any index at
    all, and removing it again gives the array back. *)
Theorem removeFrom_insertAt (array : list A) (item : A) (index : Z)
  (Hnew : ~ In item array) :
  removeFrom item (insertAt array item index) = ([item], array).
Proof.
  pose proof (insertAt_at array item index) as E. cbv zeta in E. rewrite E.
  set (k := Z.to_nat _).
  rewrite removeFrom_at_first.
  - now rewrite take_drop.
  - intros Hin. apply Hnew. rewrite <- (take_drop k array).
    apply in_or_app. left. exact Hin.
Qed.

End ArrayFacts.

Lemma removeFrom_present_witness :
  removeFrom 7 ([3; 5] ++ 7 :: [9; 7]) = ([7], ([3; 5] ++ [9; 7])%list).
Proof. apply (removeFrom_present 7 [3; 5] [9; 7]). cbn. lia. Defined.

Lemma removeFrom_absent_witness :
  removeFrom 4 ([3; 5] ++ [7]) = ([7], [3; 5])
  /\ removeFrom 4 (@nil Z) = ([], []).
Proof. apply (removeFrom_absent 4 7 [3; 5]). cbn. lia. Defined.

Lemma insertAt_in_bounds_witness :
  insertAt [3; 5; 9] 7 2 !! Z.to_nat 2 = Some 7
  /\ take (Z.to_nat 2) (insertAt [3; 5; 9] 7 2) = take (Z.to_nat 2) [3; 5; 9]
  /\ drop (S (Z.to_nat 2)) (insertAt [3; 5; 9] 7 2) = drop (Z.to_nat 2) [3; 5; 9]
  /\ length (insertAt [3; 5; 9] 7 2) = S (length [3; 5; 9]).
Proof. apply (insertAt_in_bounds [3; 5; 9] 7 2). cbn. lia. Defined.

Lemma removeFrom_insertAt_witness :
  removeFrom 7 (insertAt [3; 5; 9] 7 (-10)) = ([7], [3; 5; 9]).
Proof. apply (removeFrom_insertAt [3; 5; 9] 7 (-10)). cbn. lia. Defined.

(* ===================================================================== *)
(** ** Properties of the path utilities and of [hasOverlap] *)
(* ===================================================================== *)

Lemma lastIndexOf_go_absent c l :
  lacks c l -> forall i found, lastIndexOf_go c l i found = found.
Proof.
  induction l as [|x l IH]; intros Hl i found; [reflexivity|].
  apply lacks_cons in Hl as [Hx Hl]. cbn [lastIndexOf_go]. rewrite Hx. now apply IH.
Qed.

Lemma lastIndexOf_go_last c l1 l2 :
  lacks c l2 ->
  forall i found,
    lastIndexOf_go c (l1 ++ c :: l2) i found = i + Z.of_nat (length l1).
Proof.
  intros Hl2. induction l1 as [|x l1 IH]; intros i found; cbn [app lastIndexOf_go length].
  - rewrite Ascii.eqb_refl, lastIndexOf_go_absent by exact Hl2. lia.
  - rewrite IH. lia.
Qed.

Lemma slice_from_drop s k :
  0 <= k <= Z.of_nat (String.length s) ->
  slice_from s k = join_chars (drop (Z.to_nat k) (chars s)).
Proof.
  intros Hk. unfold slice_from, slice.
  destruct (Z.ltb_spec k 0); [lia|].
  destruct (Z.ltb_spec (Z.of_nat (String.length s)) 0); [lia|].
  rewrite !Z.min_l by lia. f_equal. apply take_ge.
  rewrite length_drop, length_chars. lia.
Qed.

Lemma slice_take s k :
  0 <= k <= Z.of_nat (String.length s) ->
  slice s 0 k = join_chars (take (Z.to_nat k) (chars s)).
Proof.
  intros Hk. unfold slice.
  destruct (Z.ltb_spec k 0); [lia|]. cbn [Z.ltb Z.compare].
  rewrite !Z.min_l by lia. cbn [Z.to_nat drop]. now rewrite Z.sub_0_r.
Qed.

Lemma pathToName_after_slash dir name :
  lacks "/" (chars name) -> pathToName (dir ++ "/" ++ name) = name.
Proof.
  intros Hn. unfold pathToName, lastIndexOf.
  rewrite chars_app. change (chars ("/" ++ name)) with ("/"%char :: chars name).
  rewrite lastIndexOf_go_last by exact Hn.
  rewrite slice_from_drop.
  - rewrite chars_app. change (chars ("/" ++ name)) with ("/"%char :: chars name).
    replace (Z.to_nat (0 + Z.of_nat (length (chars dir)) + 1))
      with (length (chars dir) + 1)%nat by lia.
    rewrite <- drop_drop, drop_app_length. cbn [drop]. apply join_chars_chars.
  - rewrite <- length_chars, chars_app, length_app. cbn [length chars].
    change (chars ("/" ++ name)) with ("/"%char :: chars name). cbn [length]. lia.
Qed.

Lemma pathToName_no_slash name :
  lacks "/" (chars name) -> pathToName name = name.
Proof.
  intros Hn. unfold pathToName, lastIndexOf.
  rewrite lastIndexOf_go_absent by exact Hn.
  rewrite slice_from_drop by lia. cbn [Z.to_nat Z.add drop]. apply join_chars_chars.
Qed.

(** X8.  [pathToName] returns what follows the last slash: for a name
    without slash, the name of "dir/name" is "name" whatever [dir] holds,
    and a path without slash is its own name. *)
Theorem pathToName_last_component (dir name : string)
  (Hname : lacks "/" (chars name)) :
  pathToName (dir ++ "/" ++ name) = name /\ pathToName name = name.
Proof. split; [now apply pathToName_after_slash|now apply pathToName_no_slash]. Qed.

Lemma pathToName_last_component_witness :
  pathToName ("notes/algebra" ++ "/" ++ "groups.md") = "groups.md"
  /\ pathToName "groups.md" = "groups.md".
Proof. apply (pathToName_last_component "notes/algebra" "groups.md"). reflexivity. Defined.

(** X9.  [pathToBaseName] drops the directories and the extension, which
    is what follows the last dot of the name: "dir/base.ext" gives "base"
    when [ext] holds no dot (so "dir/a.b.ext" gives "a.b", and a name that
    starts with its only dot gives the empty string), and a name without
    dot is returned whole. *)
Theorem pathToBaseName_strips (dir base ext : string)
  (Hbase : lacks "/" (chars base))
  (Hext_slash : lacks "/" (chars ext)) (Hext_dot : lacks "." (chars ext)) :
  pathToBaseName (dir ++ "/" ++ base ++ "." ++ ext) = base
  /\ pathToBaseName (dir ++ "/" ++ ext) = ext.
Proof.
  unfold pathToBaseName. split.
  - rewrite pathToName_after_slash.
    + unfold lastIndexOf. rewrite chars_app.
      change (chars ("." ++ ext)) with ("."%char :: chars ext).
      rewrite lastIndexOf_go_last by exact Hext_dot.
      destruct (Z.leb_spec 0 (0 + Z.of_nat (length (chars base)))); [|lia].
      rewrite slice_take.
      * rewrite chars_app. replace (Z.to_nat (0 + Z.of_nat (length (chars base))))
          with (length (chars base)) by lia.
        rewrite take_app_length. apply join_chars_chars.
      * rewrite <- length_chars, chars_app, length_app. lia.
    + rewrite chars_app. apply lacks_app. split; [exact Hbase|].
      change (chars ("." ++ ext)) with ("."%char :: chars ext).
      apply lacks_cons. split; [reflexivity|exact Hext_slash].
  - rewrite pathToName_after_slash by exact Hext_slash.
    unfold lastIndexOf. rewrite lastIndexOf_go_absent by exact Hext_dot.
    reflexivity.
Qed.

Lemma pathToBaseName_strips_witness :
  pathToBaseName ("notes" ++ "/" ++ "1.2 groups" ++ "." ++ "md") = "1.2 groups"
  /\ pathToBaseName ("notes" ++ "/" ++ "md") = "md".
Proof. apply (pathToBaseName_strips "notes" "1.2 groups" "md"); reflexivity. Defined.

(** X10.  For two ranges whose ends are in order, [hasOverlap] holds
    exactly when some position lies in both (their ends included), and it
    does not depend on the order of its arguments. *)
Theorem hasOverlap_common_point (range1 range2 : Range)
  (H1 : from range1 <= to range1) (H2 : from range2 <= to range2) :
  (hasOverlap range1 range2 = true <->
   exists x, from range1 <= x <= to range1 /\ from range2 <= x <= to range2)
  /\ hasOverlap range1 range2 = hasOverlap range2 range1.
Proof.
  unfold hasOverlap. split; [|apply andb_comm].
  rewrite andb_true_iff, !Z.leb_le. split.
  - intros [Ha Hb]. exists (Z.max (from range1) (from range2)). lia.
  - intros (x & Hx1 & Hx2). lia.
Qed.

Lemma hasOverlap_common_point_witness :
  (hasOverlap {| from := 3; to := 8 |} {| from := 8; to := 12 |} = true <->
   exists x, from {| from := 3; to := 8 |} <= x <= to {| from := 3; to := 8 |}
             /\ from {| from := 8; to := 12 |} <= x <= to {| from := 8; to := 12 |})
  /\ hasOverlap {| from := 3; to := 8 |} {| from := 8; to := 12 |}
     = hasOverlap {| from := 8; to := 12 |} {| from := 3; to := 8 |}.
Proof.
  apply (hasOverlap_common_point {| from := 3; to := 8 |} {| from := 8; to := 12 |});
    cbn; lia.
Defined.

(* ===================================================================== *)
(** ** Further properties of prefix inference *)
(* ===================================================================== *)

Lemma string_length_app p t : String.length (p ++ t) = (String.length p + String.length t)%nat.
Proof. induction p as [|c p IH]; [reflexivity|]. simpl. now rewrite IH. Qed.

Lemma substring_whole t : substring 0 (String.length t) t = t.
Proof. induction t as [|c t IH]; [reflexivity|]. simpl. now rewrite IH. Qed.

Lemma substring_after p t :
  substring (String.length p) (String.length t) (p ++ t) = t.
Proof. induction p as [|c p IH]; [apply substring_whole|]. simpl. exact IH. Qed.

Lemma substring_before p t : substring 0 (String.length p) (p ++ t) = p.
Proof.
  induction p as [|c p IH]; simpl.
  - now destruct t.
  - now rewrite IH.
Qed.

Lemma endsWith_app p t : endsWith (p ++ t) t = true.
Proof.
  unfold endsWith. rewrite string_length_app.
  destruct (Nat.leb_spec (String.length t) (String.length p + String.length t)); [|lia].
  replace (String.length p + String.length t - String.length t)%nat
    with (String.length p) by lia.
  rewrite substring_after. cbn [andb]. apply String.eqb_refl.
Qed.

(** X11.  Whenever [inferNumberPrefix] returns a prefix, the prefix ends
    with the print separator. *)
Theorem inferNumberPrefix_ends_with_separator
  (source parseSep printSep : string) (useFirstN : Z) (prefix : string)
  (Hprefix : inferNumberPrefix source parseSep printSep useFirstN
             = Some (Normal (Some prefix))) :
  endsWith prefix printSep = true.
Proof.
  unfold inferNumberPrefix in Hprefix.
  destruct (RegExp_class parseSep) as [[k|e]|]; cbn [bind] in Hprefix; try discriminate.
  destruct (areValidLabels _); [|discriminate].
  injection Hprefix as <-.
  set (joined := join_with printSep _).
  destruct (endsWith joined printSep) eqn:E; cbn [negb]; [exact E|apply endsWith_app].
Qed.

Lemma inferNumberPrefix_ends_with_separator_witness :
  endsWith "1.2." "." = true.
Proof.
  apply (inferNumberPrefix_ends_with_separator "1-2 groups" "-" "." 5 "1.2.").
  reflexivity.
Defined.

Lemma first_space_or_length_head l ws rest :
  forallb (fun c => negb (is_space c)) l = true -> is_space ws = true ->
  first_space_or_length (l ++ ws :: rest) = length l
  /\ first_space_or_length l = length l.
Proof.
  intros Hl Hws. induction l as [|c l IH]; cbn [app first_space_or_length length].
  - now rewrite Hws.
  - cbn [forallb] in Hl. apply andb_prop in Hl as [Hc Hl].
    apply negb_true_iff in Hc. rewrite Hc.
    destruct (IH Hl) as [-> ->]. now split.
Qed.

(** X12.  [inferNumberPrefix] reads its source up to the first white
    space only: what follows does not change the result. *)
Theorem inferNumberPrefix_head_only
  (head rest parseSep printSep : string) (ws : ascii) (useFirstN : Z)
  (Hhead : forallb (fun c => negb (is_space c)) (chars head) = true)
  (Hws : is_space ws = true) :
  inferNumberPrefix (head ++ String ws rest) parseSep printSep useFirstN
  = inferNumberPrefix head parseSep printSep useFirstN.
Proof.
  unfold inferNumberPrefix, slice0.
  rewrite chars_app. change (chars (String ws rest)) with (ws :: chars rest).
  destruct (first_space_or_length_head (chars head) ws (chars rest) Hhead Hws) as [-> ->].
  rewrite length_chars, substring_before, substring_whole. reflexivity.
Qed.

Lemma inferNumberPrefix_head_only_witness :
  inferNumberPrefix ("1.2" ++ String " " "Groups and rings") "." "." 2
  = inferNumberPrefix "1.2" "." "." 2.
Proof.
  apply (inferNumberPrefix_head_only "1.2" "Groups and rings" "." "." " " 2);
    reflexivity.
Defined.

Lemma code_inj c d : code c = code d -> c = d.
Proof.
  unfold code. intros H. apply N2Z.inj in H.
  rewrite <- (ascii_N_embedding c), <- (ascii_N_embedding d). now rewrite H.
Qed.

Lemma single_class_mem c x :
  class_mem false {| negated := false; ranges := [(code c, code c)] |} x
  = Ascii.eqb x c.
Proof.
  unfold class_mem, in_ranges, in_range. cbn [negated ranges existsb andb xorb].
  rewrite !orb_false_r.
  destruct (Ascii.eqb_spec x c) as [->|Hne].
  - now rewrite !Z.leb_refl.
  - destruct (Z.leb_spec (code c) (code x)), (Z.leb_spec (code x) (code c));
      try reflexivity.
    exfalso. apply Hne, code_inj. lia.
Qed.

Lemma split_go_single c l :
  forall cur,
    split_go {| negated := false; ranges := [(code c, code c)] |} l cur
    = split_char_go c l cur.
Proof.
  induction l as [|x l IH]; intros cur; [reflexivity|].
  cbn [split_go split_char_go]. rewrite single_class_mem.
  destruct (Ascii.eqb x c); now rewrite IH.
Qed.

Lemma RegExp_class_single c :
  (code c =? 92) || (code c =? 93) || (code c =? 94) = false ->
  RegExp_class (String c "")
  = Some (Normal {| negated := false; ranges := [(code c, code c)] |}).
Proof.
  intros H. apply orb_false_iff in H as [H H94]. 
  unfold RegExp_class. cbn [chars list_ascii_of_string existsb]. rewrite H, H94.
  reflexivity.
Qed.

(** X13.  Parsing and printing with the same one-character separator
    gives the head of the source back, closed by the separator: when the
    labels are valid and all of them are used, the prefix is the head
    itself if it ends with the separator, and the head followed by the
    separator otherwise. *)
Theorem inferNumberPrefix_same_separator
  (source : string) (c : ascii) (useFirstN : Z)
  (Hc : (code c =? 92) || (code c =? 93) || (code c =? 94) = false)
  (Hvalid : areValidLabels
              (split_char c (slice0 source (first_space_or_length (chars source))))
            = true)
  (Hall : Z.of_nat (length (split_char c (slice0 source
                      (first_space_or_length (chars source))))) <= useFirstN) :
  let head := slice0 source (first_space_or_length (chars source)) in
  inferNumberPrefix source (String c "") (String c "") useFirstN
  = Some (Normal (Some (if endsWith head (String c "") then head
                        else head ++ String c ""))).
Proof.
  cbv zeta. unfold inferNumberPrefix. rewrite RegExp_class_single by exact Hc.
  cbn [bind]. unfold split. rewrite split_go_single.
  fold (split_char c (slice0 source (first_space_or_length (chars source)))).
  rewrite Hvalid.
  set (head := slice0 source (first_space_or_length (chars source))) in *.
  assert (Hs : array_slice0 (split_char c head) useFirstN = split_char c head).
  { unfold array_slice0. destruct (Z.ltb_spec useFirstN 0); [lia|].
    rewrite Z.min_r by lia. rewrite Nat2Z.id. apply firstn_all. }
  rewrite Hs, join_split_char. now destruct (endsWith head (String c "")).
Qed.

Lemma inferNumberPrefix_same_separator_witness :
  let head := slice0 "1.2.A foo" (first_space_or_length (chars "1.2.A foo")) in
  inferNumberPrefix "1.2.A foo" (String "." "") (String "." "") 3
  = Some (Normal (Some (if endsWith head (String "." "") then head
                        else head ++ String "." ""))).
Proof.
  apply (inferNumberPrefix_same_separator "1.2.A foo" "." 3); [reflexivity|reflexivity|].
  vm_compute. discriminate.
Defined.

(* ===================================================================== *)
(** ** Further properties of the numerals and of the labels *)
(* ===================================================================== *)

(** X14.  [isValidLabel] accepts exactly the non-empty strings of digits,
    the words of the Roman grammar of the source read without regard to
    case (the empty string is one of them), and the single letters. *)
Theorem isValidLabel_accepts (label : string) :
  isValidLabel label = true <->
  (label <> "" /\ forallb is_digit (chars label) = true)
  \/ lang true ROMAN_PATTERN (chars label)
  \/ (exists c, label = String c "" /\ is_letter c = true).
Proof. apply isValidLabel_spec. Qed.

Lemma lang_icase_mono r s :
  plain_classes r = true -> lang false r s -> lang true r s.
Proof.
  intros Hp H. induction H as [|k c Hc| | | | |]; cbn [plain_classes] in Hp;
    try (apply andb_prop in Hp as [Hp1 Hp2]).
  - constructor.
  - constructor. unfold class_mem in *. apply negb_true_iff in Hp. rewrite Hp in *.
    cbn [xorb andb] in *. rewrite orb_false_r in Hc. now rewrite Hc.
  - constructor; auto.
  - apply lang_alt_l; auto.
  - apply lang_alt_r; auto.
  - constructor.
  - constructor; auto.
Qed.

Lemma lower_char_cases c : lower_char c = c \/ lower_char c = swapcase c.
Proof. destruct c as [[] [] [] [] [] [] [] []]; vm_compute; auto. Qed.

Lemma swapcase_involutive c : swapcase (swapcase c) = c.
Proof. destruct c as [[] [] [] [] [] [] [] []]; reflexivity. Qed.

Lemma class_mem_lower k c : class_mem true k (lower_char c) = class_mem true k c.
Proof.
  destruct (lower_char_cases c) as [->| ->]; [reflexivity|].
  unfold class_mem. cbn [andb]. rewrite swapcase_involutive. f_equal. apply orb_comm.
Qed.

Lemma lang_lower r s : lang true r s -> lang true r (map lower_char s).
Proof.
  induction 1; cbn [map]; try rewrite map_app.
  - constructor.
  - constructor. now rewrite class_mem_lower.
  - now constructor.
  - now apply lang_alt_l.
  - now apply lang_alt_r.
  - constructor.
  - now constructor.
Qed.

Lemma chars_toLowerCase s : chars (toLowerCase s) = map lower_char (chars s).
Proof.
  unfold chars. induction s as [|c s IH]; [reflexivity|]. simpl. now rewrite IH.
Qed.

Lemma isValidLabel_of_roman s :
  lang true ROMAN_PATTERN (chars s) -> isValidLabel s = true.
Proof.
  intros H. apply matches_lang in H. unfold isValidLabel, test_anchored at 2.
  rewrite H. now destruct (test_anchored false ARABIC_PATTERN s).
Qed.

Lemma toRomanUpper_in_grammar n :
  1 <= n <= 3999 ->
  exists s, toRomanUpper n = Normal s
            /\ lang true ROMAN_PATTERN (chars s)
            /\ fromRoman s = Some n.
Proof.
  intros Hn.
  pose proof (Zseq_forallb _ _ _ roman_roundtrip_all n ltac:(lia)) as H.
  unfold roman_roundtrip in H.
  destruct (toRomanUpper n) as [s|e]; [|discriminate].
  apply andb_prop in H as [Hg Hv]. exists s. split; [reflexivity|]. split.
  - apply lang_icase_mono; [reflexivity|]. now apply matches_lang.
  - destruct (fromRoman s) as [m|]; [|discriminate].
    apply Z.eqb_eq in Hv. now subst.
Qed.

Lemma digit_char_is_digit d : 0 <= d < 10 -> is_digit (digit_char d) = true.
Proof.
  intros Hd.
  assert (H : In d (Zseq 0 10)) by (apply Zseq_In; lia).
  vm_compute in H.
  repeat (destruct H as [<-|H]; [reflexivity|]).
  destruct H.
Qed.

Lemma NumberToString_nonneg n :
  0 <= n -> NumberToString n = join_chars (map digit_char (digits 10 n)).
Proof.
  intros Hn. unfold NumberToString, toStringRadix.
  destruct (Z.ltb_spec n 0); [lia|]. now rewrite Z.abs_eq.
Qed.

Lemma isValidLabel_arabic n : 0 <= n -> isValidLabel (NumberToString n) = true.
Proof.
  intros Hn. unfold isValidLabel. rewrite ARABIC_PATTERN_spec.
  rewrite NumberToString_nonneg by exact Hn. rewrite chars_join_chars.
  destruct (Digits_sound 10 _ _ ltac:(lia) (digits_Digits 10 n ltac:(lia) Hn))
    as (_ & Hr & Hne).
  assert (Hd : forallb is_digit (map digit_char (digits 10 n)) = true).
  { apply forallb_forall. intros c Hc. apply in_map_iff in Hc as (d & <- & Hd).
    apply digit_char_is_digit. exact (proj1 (List.Forall_forall _ _) Hr d Hd). }
  rewrite Hd. destruct (digits 10 n); [congruence|reflexivity].
Qed.

(** X15.  What the formatters write, the prefix parser accepts: for every
    [n] in 1..3999 the numerals of the styles [arabic], [roman] and [Roman]
    are valid labels for [isValidLabel]. *)
Theorem formatted_numerals_are_valid_labels (n : Z) (Hn : 1 <= n <= 3999) :
  Forall (fun style => exists s, CONVERTER style n = Normal s
                                 /\ isValidLabel s = true)
         [arabic; roman; Roman].
Proof.
  destruct (toRomanUpper_in_grammar n Hn) as (s & Hs & Hg & _).
  constructor; [|constructor; [|constructor; [|constructor]]].
  - eexists. split; [reflexivity|]. apply isValidLabel_arabic. lia.
  - exists (toLowerCase s). cbn [CONVERTER]. unfold toRomanLower. rewrite Hs.
    split; [reflexivity|]. apply isValidLabel_of_roman.
    rewrite chars_toLowerCase. now apply lang_lower.
  - exists s. split; [exact Hs|]. now apply isValidLabel_of_roman.
Qed.

Lemma formatted_numerals_are_valid_labels_witness :
  Forall (fun style => exists s, CONVERTER style 1994 = Normal s
                                 /\ isValidLabel s = true)
         [arabic; roman; Roman].
Proof. apply (formatted_numerals_are_valid_labels 1994). lia. Defined.

(** *** Distinct numbers, distinct numerals *)

Lemma NumberToString_value n :
  0 <= n -> digits_value 10 0 (chars (NumberToString n)) = Some n.
Proof.
  intros Hn. rewrite NumberToString_nonneg by exact Hn. rewrite chars_join_chars.
  destruct (Digits_sound 10 _ _ ltac:(lia) (digits_Digits 10 n ltac:(lia) Hn))
    as (Hv & Hr & _).
  rewrite digits_value_digit_chars by exact Hr. f_equal. exact Hv.
Qed.

Lemma roman_symbol_upper c v : roman_symbol c = Some v -> is_upper c = true.
Proof.
  unfold roman_symbol. intros H.
  repeat match type of H with
         | (if Ascii.eqb c ?x then _ else _) = _ =>
             destruct (Ascii.eqb_spec c x) as [->|_]; [reflexivity|]
         end.
  discriminate.
Qed.

Lemma lower_char_inj_upper c d :
  is_upper c = true -> is_upper d = true -> lower_char c = lower_char d -> c = d.
Proof.
  intros Hc Hd. unfold lower_char. rewrite Hc, Hd. cbn [orb]. intros H.
  apply code_inj.
  assert (E : code (of_code (code c + 32)) = code (of_code (code d + 32))) by now rewrite H.
  unfold is_upper, in_range in Hc, Hd.
  apply andb_prop in Hc as [Hc1 Hc2]. apply andb_prop in Hd as [Hd1 Hd2].
  apply Z.leb_le in Hc1, Hc2, Hd1, Hd2.
  unfold code at 1 3, of_code in E.
  rewrite !N_ascii_embedding in E by lia. lia.
Qed.

Lemma roman_symbols_lower_inj l1 :
  forall l2 v1 v2,
    roman_symbols l1 = Some v1 -> roman_symbols l2 = Some v2 ->
    map lower_char l1 = map lower_char l2 -> l1 = l2.
Proof.
  induction l1 as [|c l1 IH]; intros [|d l2] v1 v2 H1 H2 E; try discriminate;
    [reflexivity|].
  cbn [roman_symbols map] in *.
  destruct (roman_symbol c) as [a|] eqn:Ec; [|discriminate].
  destruct (roman_symbol d) as [b|] eqn:Ed; [|discriminate].
  destruct (roman_symbols l1) as [w1|] eqn:E1; [|discriminate].
  destruct (roman_symbols l2) as [w2|] eqn:E2; [|discriminate].
  injection E as Ecd El. f_equal.
  - eapply lower_char_inj_upper; eauto using roman_symbol_upper.
  - eapply IH; eauto.
Qed.

Lemma CONVERTER_same_numeral (style : NumberStyle) (n m : Z) :
  1 <= n <= 3999 -> 1 <= m <= 3999 ->
  CONVERTER style n = CONVERTER style m -> n = m.
Proof.
  intros Hn Hm Hsame. destruct style; cbn [CONVERTER] in Hsame.
  - injection Hsame as E.
    pose proof (NumberToString_value n ltac:(lia)) as Vn.
    pose proof (NumberToString_value m ltac:(lia)) as Vm.
    rewrite E, Vm in Vn. now injection Vn.
  - injection Hsame as E.
    destruct (toAlph_values n ltac:(lia)) as (_ & Vn).
    destruct (toAlph_values m ltac:(lia)) as (_ & Vm).
    rewrite E, Vm in Vn. injection Vn. lia.
  - injection Hsame as E.
    destruct (toAlph_values n ltac:(lia)) as (Vn & _).
    destruct (toAlph_values m ltac:(lia)) as (Vm & _).
    rewrite E, Vm in Vn. injection Vn. lia.
  - destruct (toRomanUpper_in_grammar n Hn) as (s & Hs & _ & Vs).
    destruct (toRomanUpper_in_grammar m Hm) as (t & Ht & _ & Vt).
    unfold toRomanLower in Hsame. rewrite Hs, Ht in Hsame. cbn [bind] in Hsame.
    injection Hsame as E.
    assert (Est : chars s = chars t).
    { unfold fromRoman in Vs, Vt.
      destruct (roman_symbols (chars s)) as [vs|] eqn:Es; [|discriminate].
      destruct (roman_symbols (chars t)) as [vt|] eqn:Et; [|discriminate].
      apply (roman_symbols_lower_inj _ _ _ _ Es Et).
      now rewrite <- !chars_toLowerCase, E. }
    apply chars_inj in Est. subst t. rewrite Vt in Vs. now injection Vs.
  - destruct (toRomanUpper_in_grammar n Hn) as (s & Hs & _ & Vs).
    destruct (toRomanUpper_in_grammar m Hm) as (t & Ht & _ & Vt).
    rewrite Hs, Ht in Hsame. injection Hsame as ->.
    rewrite Vt in Vs. now injection Vs.
Qed.

(** X16.  Within 1..3999 every style gives distinct numerals to distinct
    numbers. *)
Theorem CONVERTER_injective (style : NumberStyle) (n m : Z)
  (Hn : 1 <= n <= 3999) (Hm : 1 <= m <= 3999)
  (Hdiff : n <> m) :
  CONVERTER style n <> CONVERTER style m.
Proof. intros Hsame. apply Hdiff. now apply (CONVERTER_same_numeral style). Qed.

Lemma CONVERTER_injective_witness : CONVERTER roman 4 <> CONVERTER roman 6.
Proof. apply (CONVERTER_injective roman 4 6); lia. Defined.

(** *** The Roman formatter in closed form *)

Lemma roman_closed_form_small :
  forallb (fun n => match toRomanUpper n with
                    | Normal s => String.eqb s (roman_closed_form n)
                    | Throw _ => false
                    end)
          (Zseq 0 1000) = true.
Proof. vm_cast_no_check (eq_refl true). Qed.

Lemma ToNumber1_digit_char d :
  0 <= d < 10 ->
  ToNumber1 (Some (digit_char d)) = Some d
  /\ (code (digit_char d) =? 45) = false
  /\ (code (digit_char d) =? 43) = false.
Proof.
  intros Hd.
  assert (H : In d (Zseq 0 10)) by (apply Zseq_In; lia).
  vm_compute in H.
  repeat (destruct H as [<-|H]; [repeat split; reflexivity|]).
  destruct H.
Qed.

Lemma ToNumber_digit_chars ds :
  Forall (fun d => 0 <= d < 10) ds -> ds <> [] ->
  ToNumber (join_chars (map digit_char ds)) = Some (horner 10 ds).
Proof.
  intros Hr Hne. unfold ToNumber. rewrite chars_join_chars.
  destruct ds as [|d ds]; [congruence|].
  cbn [map]. inversion Hr as [|? ? Hd Hds]; subst.
  destruct (ToNumber1_digit_char d Hd) as (_ & -> & ->).
  change (digit_char d :: map digit_char ds) with (map digit_char (d :: ds)).
  now rewrite digits_value_digit_chars.
Qed.

Lemma append_nil_r s : s ++ "" = s.
Proof.
  induction s as [|c s IH]; [reflexivity|].
  change (String c s ++ "") with (String c (s ++ "")). now rewrite IH.
Qed.

Lemma digits_last_three n :
  1000 <= n ->
  digits 10 n
  = (digits 10 (n / 1000) ++ [(n / 100) mod 10; (n / 10) mod 10; n mod 10])%list.
Proof.
  intros Hn.
  rewrite (digits_step 10 n) by lia.
  assert (100 <= n / 10) by (apply Z.div_le_lower_bound; lia).
  rewrite (digits_step 10 (n / 10)) by lia.
  assert (10 <= n / 10 / 10) by (apply Z.div_le_lower_bound; lia).
  rewrite (digits_step 10 (n / 10 / 10)) by lia.
  rewrite !Z.div_div by lia. change (10 * 10) with 100. change (100 * 10) with 1000.
  now rewrite <- !app_assoc.
Qed.

Lemma toRomanUpper_thousands n :
  1000 <= n < 1000000 ->
  toRomanUpper n = Normal (roman_closed_form n).
Proof.
  intros Hn.
  assert (Hq : 1 <= n / 1000 < 2 ^ 32 - 1).
  { split; [apply Z.div_le_lower_bound; lia|apply Z.div_lt_upper_bound; lia]. }
  destruct (Digits_sound 10 _ _ ltac:(lia) (digits_Digits 10 (n / 1000) ltac:(lia) ltac:(lia)))
    as (Hv & Hr & Hne).
  unfold toRomanUpper. rewrite NumberToString_nonneg by lia.
  rewrite chars_join_chars, digits_last_three by lia.
  rewrite map_app. cbn [map].
  set (pre := map digit_char (digits 10 (n / 1000))).
  replace (pre ++ [digit_char ((n / 100) mod 10); digit_char ((n / 10) mod 10);
                   digit_char (n mod 10)])%list
    with (((pre ++ [digit_char ((n / 100) mod 10)])
             ++ [digit_char ((n / 10) mod 10)]) ++ [digit_char (n mod 10)])%list
    by now rewrite <- !app_assoc.
  rewrite !romanLoop_snoc. cbn [romanLoop].
  destruct (ToNumber1_digit_char ((n / 100) mod 10)
              ltac:(apply Z.mod_pos_bound; lia)) as (-> & _).
  destruct (ToNumber1_digit_char ((n / 10) mod 10)
              ltac:(apply Z.mod_pos_bound; lia)) as (-> & _).
  destruct (ToNumber1_digit_char (n mod 10)
              ltac:(apply Z.mod_pos_bound; lia)) as (-> & _).
  subst pre. rewrite ToNumber_digit_chars by assumption. rewrite Hv.
  cbn [option_map]. unfold Array_join.
  destruct (Z.leb_spec 0 (n / 1000 + 1)); [|lia].
  destruct (Z.ltb_spec (n / 1000 + 1) (2 ^ 32)); [|lia].
  cbn [andb bind]. unfold roman_closed_form, ROMAN_at.
  pose proof (Z.mod_pos_bound (n / 100) 10 ltac:(lia)).
  pose proof (Z.mod_pos_bound (n / 10) 10 ltac:(lia)).
  pose proof (Z.mod_pos_bound n 10 ltac:(lia)).
  repeat match goal with
         | |- context [?a <? 0] => destruct (Z.ltb_spec a 0); [lia|]
         end.
  rewrite append_nil_r.
  replace (n / 1000 + 1 - 1) with (n / 1000) by lia.
  replace ((n / 100) mod 10 + Z.of_nat 0 * 10) with ((n / 100) mod 10) by lia.
  replace ((n / 10) mod 10 + Z.of_nat 1 * 10) with (10 + (n / 10) mod 10) by lia.
  replace (n mod 10 + Z.of_nat 2 * 10) with (20 + n mod 10) by lia.
  reflexivity.
Qed.

(** X17.  For every [n] from 0 up to a million, [toRomanUpper] writes as
    many M as [n] has thousands and then the hundreds, the tens and the
    units from its table: there is no upper limit at 3999 (4000 is MMMM),
    0 is the empty string, and [toRomanLower] is the same in lower case. *)
Theorem toRomanUpper_closed_form (n : Z) (Hn : 0 <= n < 1000000) :
  toRomanUpper n = Normal (roman_closed_form n)
  /\ toRomanLower n = Normal (toLowerCase (roman_closed_form n)).
Proof.
  assert (H : toRomanUpper n = Normal (roman_closed_form n)).
  { destruct (Z.lt_ge_cases n 1000) as [Hs|Hb].
    - pose proof (Zseq_forallb _ _ _ roman_closed_form_small n ltac:(lia)) as H.
      cbn beta in H. destruct (toRomanUpper n) as [s|]; [|discriminate].
      apply String.eqb_eq in H. now subst.
    - apply toRomanUpper_thousands. lia. }
  split; [exact H|]. unfold toRomanLower. now rewrite H.
Qed.

Lemma toRomanUpper_closed_form_witness :
  toRomanUpper 4321 = Normal (roman_closed_form 4321)
  /\ toRomanLower 4321 = Normal (toLowerCase (roman_closed_form 4321)).
Proof. apply (toRomanUpper_closed_form 4321). lia. Defined.




(* ===================================================================== *)
(** ** Further properties of the callout readers *)
(* ===================================================================== *)

Lemma lazy_to_bracket_one_line l :
  forall acc g rest,
    lazy_to_bracket l acc = Some (g, rest) ->
    existsb is_line_terminator acc = false ->
    existsb is_line_terminator g = false.
Proof.
  induction l as [|c l IH]; intros acc g rest H Hacc; [discriminate|].
  cbn [lazy_to_bracket] in H.
  destruct (code c =? 93).
  - injection H as <- _. now rewrite existsb_rev_eq.
  - destruct (is_line_terminator c) eqn:Ec; [discriminate|].
    apply (IH _ _ _ H). cbn [existsb]. now rewrite Ec.
Qed.

Lemma rest_of_line_one_line l : existsb is_line_terminator (rest_of_line l) = false.
Proof.
  induction l as [|c l IH]; [reflexivity|]. cbn [rest_of_line].
  destruct (is_line_terminator c) eqn:Ec; [reflexivity|].
  cbn [existsb]. now rewrite Ec.
Qed.

Lemma match_here_one_line l blob rest :
  match_here l = Some (blob, rest) ->
  existsb is_line_terminator (chars blob) = false
  /\ existsb is_line_terminator (chars rest) = false.
Proof.
  unfold match_here. intros H.
  destruct (expect_lit (chars ">") l) as [l1|]; [|discriminate].
  destruct (expect_lit (chars "[!") (skip_blanks l1)) as [l2|]; [|discriminate].
  destruct (expect_lit (chars "math") (skip_blanks l2)) as [l3|]; [|discriminate].
  destruct (expect_lit (chars "|") (skip_blanks l3)) as [l4|]; [|discriminate].
  destruct (lazy_to_bracket l4 []) as [[g l5]|] eqn:E; [|discriminate].
  injection H as <- <-. rewrite !chars_join_chars. split.
  - now apply (lazy_to_bracket_one_line _ _ _ _ E).
  - apply rest_of_line_one_line.
Qed.

Lemma exec_one_line l blob rest :
  exec l = Some (blob, rest) ->
  existsb is_line_terminator (chars blob) = false
  /\ existsb is_line_terminator (chars rest) = false.
Proof.
  induction l as [|c l IH]; cbn [exec]; intros H.
  - destruct (match_here []) as [m|] eqn:E; [|discriminate].
    injection H as ->. now apply match_here_one_line in E.
  - destruct (match_here (c :: l)) as [m|] eqn:E.
    + injection H as ->. now apply match_here_one_line in E.
    + now apply IH.
Qed.

(** X18.  The settings text that [matchTheoremCallout] captures never
    holds a closing bracket (the lazy group stops at the first one, so
    settings that hold a JSON array are cut short), and neither captured
    group runs over a line terminator. *)
Theorem matchTheoremCallout_groups (line blob rest : string)
  (Hmatch : matchTheoremCallout line = Some (blob, rest)) :
  existsb (fun c => code c =? 93) (chars blob) = false
  /\ existsb is_line_terminator (chars blob) = false
  /\ existsb is_line_terminator (chars rest) = false.
Proof.
  split; [now apply (matchTheoremCallout_no_bracket line blob rest)|].
  unfold matchTheoremCallout in Hmatch. destruct line; [discriminate|].
  now apply exec_one_line in Hmatch.
Qed.

Lemma matchTheoremCallout_groups_witness :
  existsb (fun c => code c =? 93) (chars "{[1") = false
  /\ existsb is_line_terminator (chars "{[1") = false
  /\ existsb is_line_terminator (chars ", 2]}] Title") = false.
Proof.
  apply (matchTheoremCallout_groups "> [!math|{[1], 2]}] Title" "{[1" ", 2]}] Title").
  reflexivity.
Defined.

(** *** The title is trimmed *)

Lemma trimStart_head s :
  match chars (trimStart s) with
  | c :: _ => is_space c = false
  | [] => True
  end.
Proof.
  induction s as [|c s IH]; [exact I|]. cbn [trimStart].
  destruct (is_space c) eqn:E; [exact IH|]. cbn. exact E.
Qed.

Lemma trimStart_suffix s : exists pre, chars s = (pre ++ chars (trimStart s))%list.
Proof.
  induction s as [|c s (pre & IH)]; [now exists []|]. cbn [trimStart].
  destruct (is_space c).
  - exists (c :: pre). change (chars (String c s)) with (c :: chars s). now rewrite IH.
  - now exists [].
Qed.

Lemma chars_rev_string s : chars (rev_string s) = rev (chars s).
Proof. unfold rev_string. apply chars_join_chars. Qed.

Lemma trim_no_outer_space s : no_outer_space (trim s).
Proof.
  unfold no_outer_space, trim. rewrite chars_rev_string, rev_involutive.
  set (A := trimStart s). set (B := trimStart (rev_string A)).
  pose proof (trimStart_head s) as HA. fold A in HA.
  pose proof (trimStart_head (rev_string A)) as HB. fold B in HB.
  destruct (trimStart_suffix (rev_string A)) as (pre & Hpre). fold B in Hpre.
  rewrite chars_rev_string in Hpre.
  split; [|exact HB].
  assert (E : chars A = (rev (chars B) ++ rev pre)%list).
  { rewrite <- (rev_involutive (chars A)), Hpre. apply rev_app_distr. }
  destruct (rev (chars B)) as [|c l]; [exact I|].
  rewrite E in HA. exact HA.
Qed.

(** X19.  The title the readers return is trimmed: it neither starts nor
    ends with white space. *)
Theorem readTheoremCalloutTitle_trimmed (line title : string)
  (Hread : readTheoremCalloutTitle line = Normal (Some title)) :
  no_outer_space title.
Proof.
  unfold readTheoremCalloutTitle, readTheoremCalloutSettingsAndTitle in Hread.
  destruct (matchTheoremCallout line) as [[blob rest]|]; [|discriminate].
  destruct (JSON_parse blob) as [v|e]; [|discriminate].
  cbn [bind Callout.title] in Hread. injection Hread as <-.
  apply trim_no_outer_space.
Qed.

Lemma readTheoremCalloutTitle_trimmed_witness : no_outer_space "Lagrange".
Proof. apply (readTheoremCalloutTitle_trimmed Examples.header "Lagrange"). reflexivity. Defined.

(** *** Raising the quote level of a header *)

Lemma split_char_go_whole sep l :
  lacks sep l -> forall cur, split_char_go sep l cur = [join_chars (rev cur ++ l)].
Proof.
  induction l as [|c l IH]; intros Hl cur; cbn [split_char_go].
  - now rewrite app_nil_r.
  - apply lacks_cons in Hl as [Hc Hl]. rewrite Hc, IH by exact Hl.
    cbn [rev]. now rewrite <- app_assoc.
Qed.

Lemma increaseQuoteLevel_one_line line :
  lacks LF (chars line) -> increaseQuoteLevel line = "> " ++ line.
Proof.
  intros Hl. unfold increaseQuoteLevel, split_char.
  rewrite split_char_go_whole by exact Hl. cbn [rev app map join_with].
  now rewrite join_chars_chars.
Qed.

Lemma exec_quoted l : exec (chars ("> " ++ String ">" l)) = exec (chars (String ">" l)).
Proof. reflexivity. Qed.

(** X20.  Raising the quote level of a one-line callout header does not
    change what is read from it: the readers find the same settings and
    the same title behind the added quote marker. *)
Theorem readers_ignore_quote_level (rest : string)
  (Hline : lacks LF (chars rest)) :
  matchTheoremCallout (increaseQuoteLevel (String ">" rest))
  = matchTheoremCallout (String ">" rest)
  /\ readTheoremCalloutSettingsAndTitle (increaseQuoteLevel (String ">" rest))
     = readTheoremCalloutSettingsAndTitle (String ">" rest).
Proof.
  assert (Hl : lacks LF (chars (String ">" rest))).
  { change (chars (String ">" rest)) with (">"%char :: chars rest).
    apply lacks_cons. split; [reflexivity|exact Hline]. }
  assert (E : matchTheoremCallout (increaseQuoteLevel (String ">" rest))
              = matchTheoremCallout (String ">" rest)).
  { rewrite increaseQuoteLevel_one_line by exact Hl.
    unfold matchTheoremCallout.
    change ("> " ++ String ">" rest) with (String ">" (String " " (String ">" rest))).
    cbv iota. apply (exec_quoted rest). }
  split; [exact E|].
  unfold readTheoremCalloutSettingsAndTitle. now rewrite E.
Qed.

Lemma readers_ignore_quote_level_witness :
  matchTheoremCallout (increaseQuoteLevel (String ">" " [!math|{}] Title"))
  = matchTheoremCallout (String ">" " [!math|{}] Title")
  /\ readTheoremCalloutSettingsAndTitle
       (increaseQuoteLevel (String ">" " [!math|{}] Title"))
     = readTheoremCalloutSettingsAndTitle (String ">" " [!math|{}] Title").
Proof. apply (readers_ignore_quote_level " [!math|{}] Title"). reflexivity. Defined.

(* ===================================================================== *)
(** ** Further properties of settings resolution *)
(* ===================================================================== *)

Lemma file_eqb_refl : forall a, file_eqb a a = true.
Proof.
  fix IH 1. intros [p [q|]|p [q|] r]; cbn [file_eqb];
    rewrite ?String.eqb_refl, ?IH, ?Bool.eqb_reflx; reflexivity.
Qed.

Lemma chain_head f : exists rest, chain f = f :: rest.
Proof. destruct f as [p [q|]|p [q|] r]; cbn [chain]; eauto. Qed.

Lemma adjacent_cons2 {A} (R : A -> A -> bool) a b l :
  adjacent R (a :: b :: l) = R a b && adjacent R (b :: l).
Proof. reflexivity. Qed.

Lemma chain_linked_up :
  forall f, adjacent (fun a b => is_parent_of b a) (chain f) = true.
Proof.
  fix IH 1. intros [p [q|]|p [q|] r]; cbn [chain]; try reflexivity.
  - destruct (chain_head q) as [rest Hq]. pose proof (IH q) as Hrec.
    rewrite Hq in *. rewrite adjacent_cons2, Hrec.
    unfold is_parent_of. cbn [parent]. now rewrite file_eqb_refl.
  - destruct (chain_head q) as [rest Hq]. pose proof (IH q) as Hrec.
    rewrite Hq in *. rewrite adjacent_cons2, Hrec.
    unfold is_parent_of. cbn [parent]. now rewrite file_eqb_refl.
Qed.

Lemma chain_last_parentless :
  forall f, exists top, last (chain f) = Some top /\ parent top = None.
Proof.
  fix IH 1. intros [p [q|]|p [q|] r]; cbn [chain].
  - destruct (IH q) as (top & Hl & Ht). exists top. split; [|exact Ht].
    destruct (chain_head q) as [rest Hq]. rewrite Hq in *. exact Hl.
  - eexists. split; reflexivity.
  - destruct (IH q) as (top & Hl & Ht). exists top. split; [|exact Ht].
    destruct (chain_head q) as [rest Hq]. rewrite Hq in *. exact Hl.
  - eexists. split; reflexivity.
Qed.

Lemma adjacent_snoc {A} (R : A -> A -> bool) l x :
  adjacent R (l ++ [x])
  = adjacent R l && match last l with Some y => R y x | None => true end.
Proof.
  induction l as [|a l IH]; [reflexivity|].
  destruct l as [|b l].
  - cbn. now rewrite andb_true_r.
  - change ((a :: b :: l) ++ [x])%list with (a :: (b :: l) ++ [x])%list.
    change (adjacent R (a :: (b :: l) ++ [x]))
      with (R a b && adjacent R ((b :: l) ++ [x])).
    rewrite IH. change (adjacent R (a :: b :: l)) with (R a b && adjacent R (b :: l)).
    change (last (a :: b :: l)) with (last (b :: l)). now rewrite andb_assoc.
Qed.

Lemma adjacent_rev {A} (R : A -> A -> bool) l :
  adjacent R (rev l) = adjacent (fun a b => R b a) l.
Proof.
  induction l as [|a l IH]; [reflexivity|].
  cbn [rev]. rewrite adjacent_snoc, IH.
  destruct l as [|b l]; [reflexivity|].
  cbn [rev]. rewrite last_snoc.
  change (adjacent (fun a0 b0 => R b0 a0) (a :: b :: l))
    with (R b a && adjacent (fun a0 b0 => R b0 a0) (b :: l)).
  apply andb_comm.
Qed.

(** X21.  [getAncestors] lists the ancestors from the top down to the file
    itself: the file comes last, every element is the parent of the next,
    and the first element has no parent (for a folder flagged as the root
    the list is that folder alone). *)
Theorem getAncestors_top_down (file : TAbstractFile) :
  last (getAncestors file) = Some file
  /\ adjacent is_parent_of (getAncestors file) = true
  /\ if isRootFolder file then getAncestors file = [file]
     else exists top rest, getAncestors file = top :: rest /\ parent top = None.
Proof.
  rewrite getAncestors_upward. unfold ancestors_upward.
  destruct (isRootFolder file).
  - repeat split; reflexivity.
  - destruct (chain_head file) as [rest Hc].
    split; [|split].
    + rewrite Hc. cbn [rev]. apply last_snoc.
    + rewrite adjacent_rev. apply (chain_linked_up file).
    + destruct (chain_last_parentless file) as (top & Hl & Ht).
      destruct (rev (chain file)) as [|a l] eqn:E.
      * apply (f_equal (@rev _)) in E. rewrite rev_involutive in E.
        rewrite E in Hl. discriminate.
      * exists a, l. split; [reflexivity|].
        apply (f_equal (@rev _)) in E. rewrite rev_involutive in E.
        rewrite E in Hl. cbn [rev] in Hl. rewrite last_snoc in Hl.
        now injection Hl as ->.
Qed.

Lemma fold_left_ext_in {A B} (f g : A -> B -> A) (l : list B) :
  (forall a b, In b l -> f a b = g a b) ->
  forall a, fold_left f l a = fold_left g l a.
Proof.
  induction l as [|b l IH]; intros Hfg a; [reflexivity|].
  cbn [fold_left]. rewrite Hfg by now left.
  apply IH. intros a' b' Hin. apply Hfg. now right.
Qed.

Lemma merge_no_records (store : obj) h (ancestors : list TAbstractFile) :
  Forall (fun a => store !! path a = None) ancestors ->
  forall acc : obj,
    fold_left (fun acc a => ownProps h (store !! path a) ∪ acc) ancestors acc = acc.
Proof.
  induction 1 as [|a l Ha _ IH]; intros acc; [reflexivity|].
  cbn [fold_left]. rewrite Ha. cbn [ownProps]. rewrite (left_id ∅ (∪)). apply IH.
Qed.

(** X22.  Where the store has no record for any ancestor of the file,
    nothing is inherited from the folders: the result holds the local
    settings laid over the defaults, and nothing else. *)
Theorem resolveSettings_no_records
  (D : loc) (settings : option loc) (psl : loc) (file : TAbstractFile)
  (h : heap) (store : obj)
  (Hstore : h !! psl = Some store)
  (Hnone : Forall (fun a => store !! path a = None) (getAncestors file)) :
  let '(h', r) := resolveSettings D settings psl file h in
  h' !! r = Some (ownProps h (option_map VRef settings) ∪ ownProps h (Some (VRef D))).
Proof.
  rewrite (resolveSettings_result _ _ _ _ _ _ Hstore).
  rewrite lookup_insert_eq, merge_no_records by exact Hnone.
  now rewrite (right_id ∅ (∪)).
Qed.

Lemma resolveSettings_no_records_witness :
  let '(h', r) :=
    resolveSettings 1%positive (Some 7%positive) 2%positive
                    Examples.groups Examples.heap0 in
  h' !! r = Some (ownProps Examples.heap0 (option_map VRef (Some 7%positive))
                  ∪ ownProps Examples.heap0 (Some (VRef 1%positive))).
Proof.
  apply (resolveSettings_no_records 1%positive (Some 7%positive) 2%positive
           Examples.groups Examples.heap0 ∅).
  - reflexivity.
  - repeat constructor.
Defined.

Section EnsureFacts.

Implicit Types (h : heap) (l psl : loc) (v : option val).

(** The properties read through a value do not depend on a fresh empty
    object, nor on what another location holds. *)
Lemma ownProps_ensure h psl l (store2 : obj) v :
  h !! l = None -> l <> psl -> not_ref psl v ->
  ownProps (<[psl := store2]> (<[l := ∅]> h)) v = ownProps h v.
Proof.
  intros Hl Hne Hv. destruct v as [[| | | | |x]|]; try reflexivity.
  cbn [ownProps not_ref] in *.
  rewrite lookup_insert_ne by congruence.
  destruct (decide (x = l)) as [->|Hx].
  - now rewrite lookup_insert_eq, Hl.
  - now rewrite lookup_insert_ne by congruence.
Qed.

(** Resolution after a fresh empty record was stored for [file], where
    the store gave nothing for it before. *)
Lemma resolveSettings_new_record D settings psl file currentFile h (store : obj) :
  h !! psl = Some store -> D <> psl -> settings <> Some psl ->
  Forall (fun a => not_ref psl (store !! path a)) (getAncestors currentFile) ->
  ownProps h (store !! path file) = ∅ ->
  let h2 := <[psl := <[path file := VRef (new_object h).2]> store]> (new_object h).1 in
  (resolveSettings D settings psl currentFile h2).1
    !! (resolveSettings D settings psl currentFile h2).2
  = (resolveSettings D settings psl currentFile h).1
    !! (resolveSettings D settings psl currentFile h).2.
Proof.
  intros Hstore HD Hsettings Hrecords Hfile. cbv zeta.
  pose proof (new_object_fresh h) as Hl. cbn [new_object fst snd] in *.
  set (l := fresh (dom h)) in *.
  assert (Hne : l <> psl) by (intros ->; rewrite Hstore in Hl; discriminate).
  set (store2 := <[path file := VRef l]> store).
  rewrite (resolveSettings_result D settings psl currentFile _ store2)
    by apply lookup_insert_eq.
  rewrite (resolveSettings_result D settings psl currentFile h store Hstore).
  cbn [fst snd]. rewrite !lookup_insert_eq. f_equal. f_equal.
  - apply ownProps_ensure; [exact Hl|exact Hne|].
    destruct settings as [s|]; cbn; [congruence|exact I].
  - rewrite (ownProps_ensure h psl l store2 (Some (VRef D)) Hl Hne)
      by (cbn; exact HD).
    apply fold_left_ext_in. intros acc a Hin. f_equal.
    rewrite List.Forall_forall in Hrecords. specialize (Hrecords a Hin).
    unfold store2. destruct (decide (path file = path a)) as [E|E].
    + rewrite E, lookup_insert_eq. rewrite <- E, Hfile.
      cbn [ownProps]. rewrite lookup_insert_ne by congruence.
      now rewrite lookup_insert_eq.
    + rewrite lookup_insert_ne by exact E.
      now apply ownProps_ensure.
Qed.

End EnsureFacts.

(** X23.  Giving a file an empty record, as the local-settings dialog does
    when it opens, changes what no file resolves to: the object
    [resolveSettings] builds afterwards has the properties it would have
    had before.  (No record consulted may be the per-path store itself.) *)
Theorem resolveSettings_after_ensureLocalSettings
  (D : loc) (settings : option loc) (psl : loc)
  (file currentFile : TAbstractFile) (h : heap) (store : obj)
  (Hstore : h !! psl = Some store)
  (HD : D <> psl)
  (Hsettings : settings <> Some psl)
  (Hrecords : Forall (fun a => not_ref psl (store !! path a))
                     (getAncestors currentFile)) :
  let h2 := ensureLocalSettings psl file h in
  (resolveSettings D settings psl currentFile h2).1
    !! (resolveSettings D settings psl currentFile h2).2
  = (resolveSettings D settings psl currentFile h).1
    !! (resolveSettings D settings psl currentFile h).2.
Proof.
  cbv zeta. unfold ensureLocalSettings. rewrite Hstore.
  destruct (store !! path file) as [[| | | | |x]|] eqn:Hfile; try reflexivity;
    apply (resolveSettings_new_record D settings psl file currentFile h store);
    try assumption; now rewrite Hfile.
Qed.

Lemma resolveSettings_after_ensureLocalSettings_witness :
  let h2 := ensureLocalSettings 3%positive Examples.algebra
              (delete 5%positive
                 (<[3%positive := delete "algebra" Examples.store]> Examples.heap0)) in
  (resolveSettings 1%positive (Some 7%positive) 3%positive Examples.groups h2).1
    !! (resolveSettings 1%positive (Some 7%positive) 3%positive Examples.groups h2).2
  = (resolveSettings 1%positive (Some 7%positive) 3%positive Examples.groups
       (delete 5%positive
          (<[3%positive := delete "algebra" Examples.store]> Examples.heap0))).1
    !! (resolveSettings 1%positive (Some 7%positive) 3%positive Examples.groups
          (delete 5%positive
             (<[3%positive := delete "algebra" Examples.store]> Examples.heap0))).2.
Proof.
  apply (resolveSettings_after_ensureLocalSettings 1%positive (Some 7%positive)
           3%positive Examples.algebra Examples.groups _
           (delete "algebra" Examples.store)).
  - reflexivity.
  - discriminate.
  - discriminate.
  - repeat constructor; vm_compute; discriminate.
Defined.

(* ===================================================================== *)
(** ** Properties of the vault predicates *)
(* ===================================================================== *)

Lemma ancestor_loop_under_root (file2 : TAbstractFile) :
  forall p, under_root p = true ->
  forall fuel, (length (chain p) <= fuel)%nat ->
    ancestor_loop fuel (Some p) file2
    = Some (Normal (existsb (fun a => file_eqb a file2) (chain p))).
Proof.
  fix IH 1. intros [p [q|]|p [q|] r] Hu fuel Hf; cbn [under_root] in Hu;
    try discriminate.
  - apply andb_true_iff in Hu as [Hr Hq].
    destruct r; [discriminate|].
    cbn [chain length] in Hf. destruct fuel as [|fuel]; [lia|].
    cbn [chain existsb ancestor_loop isRoot parent].
    destruct (file_eqb _ file2); [reflexivity|].
    cbn [orb]. apply IH; [exact Hq|lia].
  - subst r. cbn [chain length] in Hf. destruct fuel as [|fuel]; [lia|].
    cbn [chain existsb ancestor_loop isRoot].
    now destruct (file_eqb _ file2).
Qed.

Lemma ancestor_loop_null (file2 : TAbstractFile) :
  forall fuel, ancestor_loop fuel None file2 = None.
Proof. induction fuel as [|fuel IH]; [reflexivity|exact IH]. Qed.

Lemma isEqualToOrChildOf_closed_form (file1 file2 : TAbstractFile) (fuel : nat) :
  well_placed file1 = true ->
  (length (strict_ancestors file1) <= fuel)%nat ->
  isEqualToOrChildOf fuel file1 file2
  = Some (Normal (file_eqb file1 file2 || isRootFolder file2
                  || existsb (fun a => file_eqb a file2) (strict_ancestors file1))).
Proof.
  unfold well_placed, strict_ancestors, isEqualToOrChildOf.
  intros Hw Hf. destruct (file_eqb file1 file2); [reflexivity|].
  destruct (isRootFolder file2); [reflexivity|].
  destruct (parent file1) as [p|]; [|discriminate].
  cbn [orb]. now apply ancestor_loop_under_root.
Qed.

(** X24.  For a file or folder that sits below the vault root,
    [isEqualToOrChildOf] returns after at most as many turns of its loop
    as the file has ancestors, and its answer is [true] exactly when the
    second file is the first one, the root folder, or one of the
    ancestors of the first. *)
Theorem isEqualToOrChildOf_below_root
  (file1 file2 : TAbstractFile) (fuel : nat)
  (Hplaced : well_placed file1 = true)
  (Hfuel : (length (strict_ancestors file1) <= fuel)%nat) :
  isEqualToOrChildOf fuel file1 file2
  = Some (Normal (file_eqb file1 file2 || isRootFolder file2
                  || existsb (fun a => file_eqb a file2) (strict_ancestors file1))).
Proof. now apply isEqualToOrChildOf_closed_form. Qed.

Lemma isEqualToOrChildOf_below_root_witness :
  isEqualToOrChildOf 2 Examples.groups Examples.algebra
  = Some (Normal (file_eqb Examples.groups Examples.algebra
                  || isRootFolder Examples.algebra
                  || existsb (fun a => file_eqb a Examples.algebra)
                       (strict_ancestors Examples.groups))).
Proof.
  apply (isEqualToOrChildOf_below_root Examples.groups Examples.algebra 2).
  - reflexivity.
  - vm_compute. lia.
Defined.

(** X25.  Called on a first file without parent (the vault root) and a
    second file that is neither that file nor a root folder,
    [isEqualToOrChildOf] never returns, whatever the number of turns
    allowed: its loop keeps testing [null]. *)
Theorem isEqualToOrChildOf_parentless_never_returns
  (file1 file2 : TAbstractFile) (fuel : nat)
  (Hparent : parent file1 = None)
  (Hother : file_eqb file1 file2 = false)
  (Hroot : isRootFolder file2 = false) :
  isEqualToOrChildOf fuel file1 file2 = None.
Proof.
  unfold isEqualToOrChildOf.
  rewrite Hother, Hroot, Hparent. apply ancestor_loop_null.
Qed.

Lemma isEqualToOrChildOf_parentless_never_returns_witness :
  isEqualToOrChildOf 1000 Examples.root Examples.algebra = None.
Proof.
  apply (isEqualToOrChildOf_parentless_never_returns
           Examples.root Examples.algebra 1000);
    reflexivity.
Defined.

Section SuggestFacts.

Variable extension : TAbstractFile -> string.
Variable vault : gmap string TAbstractFile.

Lemma excluded_loop_closed_form (abstractFile : TAbstractFile) (fuel : nat) :
  well_placed abstractFile = true ->
  (length (strict_ancestors abstractFile) <= fuel)%nat ->
  forall excludedFiles,
    excluded_loop vault fuel excludedFiles abstractFile
    = Some (Normal (forallb
        (fun path =>
           match vault !! path with
           | Some file =>
               negb (file_eqb abstractFile file || isRootFolder file
                     || existsb (fun a => file_eqb a file)
                          (strict_ancestors abstractFile))
           | None => true
           end) excludedFiles)).
Proof.
  intros Hw Hf. induction excludedFiles as [|path rest IH]; [reflexivity|].
  cbn [excluded_loop forallb]. destruct (vault !! path) as [file|]; [|exact IH].
  rewrite (isEqualToOrChildOf_closed_form _ file fuel Hw Hf).
  destruct (_ || _ || _); [reflexivity|exact IH].
Qed.

End SuggestFacts.

(** X26.  A file or folder below the vault root is never suggested when
    the list of excluded paths names it or one of its ancestors: the
    filter of the suggestion dialog returns [false], whatever else the
    list holds. *)
Theorem filterCallback_excluded
  (extension : TAbstractFile -> string) (vault : gmap string TAbstractFile)
  (fuel : nat) (excludedFiles : list string) (pth : string)
  (abstractFile file : TAbstractFile)
  (Hplaced : well_placed abstractFile = true)
  (Hfuel : (length (strict_ancestors abstractFile) <= fuel)%nat)
  (Hin : In pth excludedFiles)
  (Hfile : vault !! pth = Some file)
  (Hbelow : existsb (fun a => file_eqb a file) (chain abstractFile) = true) :
  filterCallback extension vault fuel excludedFiles abstractFile
  = Some (Normal false).
Proof.
  unfold filterCallback.
  destruct (_ && _); [reflexivity|].
  destruct (isRootFolder abstractFile); [reflexivity|].
  rewrite (excluded_loop_closed_form vault abstractFile fuel Hplaced Hfuel).
  do 2 f_equal. apply not_true_is_false. intros Hall.
  rewrite forallb_forall in Hall. specialize (Hall pth Hin).
  rewrite Hfile in Hall.
  assert (Hc : chain abstractFile = abstractFile :: strict_ancestors abstractFile).
  { unfold strict_ancestors.
    destruct abstractFile as [p [q|]|p [q|] r]; reflexivity. }
  rewrite Hc in Hbelow. cbn [existsb] in Hbelow.
  apply orb_true_iff in Hbelow as [E|E]; rewrite E in Hall;
    rewrite ?orb_true_r in Hall; discriminate.
Qed.

Lemma filterCallback_excluded_witness :
  filterCallback (fun _ => "md") {[ "algebra" := Examples.algebra ]} 2
    ["notes"; "algebra"] Examples.groups
  = Some (Normal false).
Proof.
  apply (filterCallback_excluded (fun _ => "md") {[ "algebra" := Examples.algebra ]} 2
           ["notes"; "algebra"] "algebra" Examples.groups Examples.algebra).
  - reflexivity.
  - vm_compute. lia.
  - right. left. reflexivity.
  - reflexivity.
  - reflexivity.
Defined.

(** X27.  With every excluded path naming a file that is neither the file
    at hand, nor a root folder, nor one of its ancestors, the filter keeps
    a markdown note or a folder below the vault root: it returns [true]
    within the bound. *)
Theorem filterCallback_kept
  (extension : TAbstractFile -> string) (vault : gmap string TAbstractFile)
  (fuel : nat) (excludedFiles : list string) (abstractFile : TAbstractFile)
  (Hplaced : well_placed abstractFile = true)
  (Hfuel : (length (strict_ancestors abstractFile) <= fuel)%nat)
  (Hmd : isTFile abstractFile = true -> extension abstractFile = "md")
  (Hnotroot : isRootFolder abstractFile = false)
  (Hclear : Forall (fun pth =>
               forall file, vault !! pth = Some file ->
                 isRootFolder file = false
                 /\ existsb (fun a => file_eqb a file) (chain abstractFile) = false)
              excludedFiles) :
  filterCallback extension vault fuel excludedFiles abstractFile
  = Some (Normal true).
Proof.
  unfold filterCallback.
  assert (Hext : isTFile abstractFile
                 && negb (String.eqb (extension abstractFile) "md") = false).
  { destruct (isTFile abstractFile); [|reflexivity].
    rewrite Hmd by reflexivity. reflexivity. }
  rewrite Hext, Hnotroot.
  rewrite (excluded_loop_closed_form vault abstractFile fuel Hplaced Hfuel).
  do 2 f_equal. apply forallb_forall. intros pth Hin.
  rewrite List.Forall_forall in Hclear. specialize (Hclear pth Hin).
  destruct (vault !! pth) as [file|]; [|reflexivity].
  destruct (Hclear file eq_refl) as [Hr Hc].
  assert (Hch : chain abstractFile = abstractFile :: strict_ancestors abstractFile).
  { unfold strict_ancestors.
    destruct abstractFile as [p [q|]|p [q|] r]; reflexivity. }
  rewrite Hch in Hc. cbn [existsb] in Hc.
  apply orb_false_iff in Hc as [E1 E2]. now rewrite E1, E2, Hr.
Qed.

Lemma filterCallback_kept_witness :
  filterCallback (fun _ => "md")
    {[ "notes" := TFolder "notes" (Some Examples.root) false ]} 2
    ["notes"] Examples.groups
  = Some (Normal true).
Proof.
  apply (filterCallback_kept (fun _ => "md")
           {[ "notes" := TFolder "notes" (Some Examples.root) false ]} 2
           ["notes"] Examples.groups).
  - reflexivity.
  - vm_compute. lia.
  - reflexivity.
  - reflexivity.
  - constructor; [|constructor].
    intros file H. vm_compute in H. injection H as <-. split; reflexivity.
Defined.
